(** * kproto: a typed binary codec (proto/primitive.py, proto/primitives.py,
      proto/complex.py)

    A shallow embedding of the primitive value types (scalar integers,
    Boolean, floats, Char, String, Array-of-T) and of the composite
    mapped/data types, with their [serialize], [deserialize] and [measure]
    operations, followed by the properties of the codec.

    Host-language conventions used throughout:
    - a Python [bytes] object is a [list byte];
    - a Python [int] is a [Z]; lengths and slice offsets are [nat];
    - a Python [str] is the list of its code points;
    - a Python [float] is a binary64 [spec_float];
    - a raised exception is the [Raise] case of the [result] monad. *)

From Stdlib Require Import ZArith List Lia Bool String SpecFloat.
From coqutil Require Import Byte Word.LittleEndianList.
Import ListNotations.

Set Implicit Arguments.
Set Warnings "-register-all".

(* ================================================================== *)
(** * Exceptions and the error monad *)

Inductive exn : Type :=
| OverflowError | TypeError | ValueError | IndexError | AttributeError
| StructError | UnicodeError | RecursionError.

Inductive result (A : Type) : Type :=
| Ok (a : A)
| Raise (e : exn).

Arguments Ok {A} a.
Arguments Raise {A} e.

Definition bind {A B : Type} (c : result A) (k : A -> result B) : result B :=
  match c with
  | Ok a => k a
  | Raise e => Raise e
  end.

Notation "x <- c ;; k" := (bind c (fun x => k))
  (at level 61, c at next level, right associativity).

Definition raises {A : Type} (c : result A) : Prop :=
  exists e, c = Raise e.

Definition returns {A : Type} (c : result A) : Prop :=
  exists a, c = Ok a.

(** [for x in xs: ys.append(f(x))], stopping at the first exception. *)
Fixpoint mapM {A B : Type} (f : A -> result B) (xs : list A) : result (list B) :=
  match xs with
  | [] => Ok []
  | x :: xs' => y <- f x ;; ys <- mapM f xs' ;; Ok (y :: ys)
  end.

(** [for x in xs: st = body(st, x)]. *)
Definition foldM {A S : Type} (body : S -> A -> result S)
  : list A -> S -> result S :=
  fix go (xs : list A) (st : S) {struct xs} : result S :=
    match xs with
    | [] => Ok st
    | x :: xs' => st' <- body st x ;; go xs' st'
    end.

(** [for x in xs: if not p(x): return False] and [return True] after the
    loop. *)
Definition allM {A : Type} (p : A -> result bool) : list A -> result bool :=
  fix go (xs : list A) {struct xs} : result bool :=
    match xs with
    | [] => Ok true
    | x :: xs' => ok <- p x ;; if ok then go xs' else Ok false
    end.

(** A property of every field of a field-map. *)
Definition Forall_fields {K V : Type} (P : K -> V -> Prop) : list (K * V) -> Prop :=
  fix go (m : list (K * V)) {struct m} : Prop :=
    match m with
    | [] => True
    | (k, v) :: m' => P k v /\ go m'
    end.


(** [for _ in range(n): st = body(st)]. *)
Fixpoint repeatM {S : Type} (n : nat) (body : S -> result S) (st : S) : result S :=
  match n with
  | O => Ok st
  | S n' => st' <- body st ;; repeatM n' body st'
  end.

(* ================================================================== *)
(** * Byte strings and the [int] byte conversions *)

Definition bytes : Type := list byte.

(** [data[:n]], [data[n:]] and [data[a:b]] for non-negative bounds. *)
Definition slice_to (n : nat) (data : bytes) : bytes := firstn n data.
Definition slice_from (n : nat) (data : bytes) : bytes := skipn n data.
Definition slice (a b : nat) (data : bytes) : bytes := firstn (b - a) (skipn a data).

(** [n.to_bytes(length, byteorder="little", signed=signed)]. *)
Definition int_to_bytes (length : nat) (signed : bool) (n : Z) : result bytes :=
  let bits := (8 * Z.of_nat length)%Z in
  if signed then
    if ((- 2 ^ (bits - 1) <=? n) && (n <? 2 ^ (bits - 1)))%Z
    then Ok (le_split length n)
    else Raise OverflowError
  else
    if ((0 <=? n) && (n <? 2 ^ bits))%Z
    then Ok (le_split length n)
    else Raise OverflowError.

(** [int.from_bytes(data, byteorder="little", signed=signed)]; the empty
    byte string decodes to 0. *)
Definition int_from_bytes (signed : bool) (data : bytes) : Z :=
  let u := le_combine data in
  let bits := (8 * Z.of_nat (List.length data))%Z in
  match data with
  | [] => 0%Z
  | _ => if signed && (2 ^ (bits - 1) <=? u)%Z then (u - 2 ^ bits)%Z else u
  end.

(* ================================================================== *)
(** * Text: [str] values and the UTF-8 codec *)

(** A [str] is the sequence of its code points. *)
Definition str : Type := list Z.

Definition is_surrogate (c : Z) : bool := ((55296 <=? c) && (c <=? 57343))%Z.

(** A code point that a Python [str] can hold and [encode("utf8")] accepts. *)
Definition scalar_value (c : Z) : bool :=
  ((0 <=? c) && (c <? 1114112))%Z && negb (is_surrogate c).

(** UTF-8 encoding of one code point. *)
Definition utf8_encode_cp (c : Z) : result bytes :=
  if negb (scalar_value c) then Raise UnicodeError
  else if (c <? 128)%Z then Ok [byte.of_Z c]
  else if (c <? 2048)%Z then
    Ok [byte.of_Z (192 + c / 64); byte.of_Z (128 + c mod 64)]
  else if (c <? 65536)%Z then
    Ok [byte.of_Z (224 + c / 4096); byte.of_Z (128 + (c / 64) mod 64);
        byte.of_Z (128 + c mod 64)]
  else
    Ok [byte.of_Z (240 + c / 262144); byte.of_Z (128 + (c / 4096) mod 64);
        byte.of_Z (128 + (c / 64) mod 64); byte.of_Z (128 + c mod 64)].

(** [s.encode("utf8")]. *)
Definition utf8_encode (s : str) : result bytes :=
  chunks <- mapM utf8_encode_cp s ;; Ok (List.concat chunks).

Definition is_continuation (b : byte) : bool :=
  ((128 <=? byte.unsigned b) && (byte.unsigned b <? 192))%Z.

Definition cont_bits (b : byte) : Z := (byte.unsigned b - 128)%Z.

(** [data.decode("utf8")] with the default strict error handler: overlong
    forms, surrogates, code points above U+10FFFF, stray continuation bytes
    and truncated sequences are all rejected. *)
Fixpoint utf8_decode (data : bytes) : result str :=
  match data with
  | [] => Ok []
  | b0 :: rest =>
    let u0 := byte.unsigned b0 in
    if (u0 <? 128)%Z then
      s <- utf8_decode rest ;; Ok (u0 :: s)
    else if (u0 <? 192)%Z then Raise UnicodeError
    else if (u0 <? 224)%Z then
      match rest with
      | b1 :: rest' =>
        let c := ((u0 - 192) * 64 + cont_bits b1)%Z in
        if is_continuation b1 && (128 <=? c)%Z
        then s <- utf8_decode rest' ;; Ok (c :: s)
        else Raise UnicodeError
      | _ => Raise UnicodeError
      end
    else if (u0 <? 240)%Z then
      match rest with
      | b1 :: b2 :: rest' =>
        let c := ((u0 - 224) * 4096 + cont_bits b1 * 64 + cont_bits b2)%Z in
        if is_continuation b1 && is_continuation b2
           && (2048 <=? c)%Z && negb (is_surrogate c)
        then s <- utf8_decode rest' ;; Ok (c :: s)
        else Raise UnicodeError
      | _ => Raise UnicodeError
      end
    else if (u0 <? 248)%Z then
      match rest with
      | b1 :: b2 :: b3 :: rest' =>
        let c := ((u0 - 240) * 262144 + cont_bits b1 * 4096
                  + cont_bits b2 * 64 + cont_bits b3)%Z in
        if is_continuation b1 && is_continuation b2 && is_continuation b3
           && (65536 <=? c)%Z && (c <? 1114112)%Z
        then s <- utf8_decode rest' ;; Ok (c :: s)
        else Raise UnicodeError
      | _ => Raise UnicodeError
      end
    else Raise UnicodeError
  end.

(* ================================================================== *)
(** * Floats: binary64 values and the [struct] float formats *)

(** The three [struct] formats used by the float primitives. *)
Inductive float_fmt : Type := fmt_e | fmt_f | fmt_d.

Definition fmt_prec (f : float_fmt) : Z :=
  match f with fmt_e => 11 | fmt_f => 24 | fmt_d => 53 end%Z.

Definition fmt_emax (f : float_fmt) : Z :=
  match f with fmt_e => 16 | fmt_f => 128 | fmt_d => 1024 end%Z.

(** [struct.calcsize(fmt)]. *)
Definition fmt_size (f : float_fmt) : nat :=
  match f with fmt_e => 2 | fmt_f => 4 | fmt_d => 8 end.

(** Width of the stored mantissa and of the biased exponent. *)
Definition fmt_mw (f : float_fmt) : Z := (fmt_prec f - 1)%Z.
Definition fmt_ew (f : float_fmt) : Z := (8 * Z.of_nat (fmt_size f) - fmt_prec f)%Z.

Definition is_finite (x : spec_float) : bool :=
  match x with S754_finite _ _ _ | S754_zero _ => true | _ => false end.

Definition is_nan (x : spec_float) : bool :=
  match x with S754_nan => true | _ => false end.

Definition is_inf (x : spec_float) : bool :=
  match x with S754_infinity _ => true | _ => false end.

(** A Python float is a binary64 value. *)
Definition valid_float (x : spec_float) : bool := valid_binary 53 1024 x.

(** Round a binary64 value to the format (round-half-even). A NaN has
    neither sign nor payload here, as in [spec_float]. *)
Definition narrow (f : float_fmt) (x : spec_float) : spec_float :=
  match x with
  | S754_finite s m e =>
    binary_normalize (fmt_prec f) (fmt_emax f) (if s then Zneg m else Zpos m) e s
  | _ => x
  end.

(** Re-express a value of a narrower format as a binary64 value (exact). *)
Definition widen (x : spec_float) : spec_float :=
  match x with
  | S754_finite s m e =>
    let '(m', e') := shl_align m e (fexp 53 1024 (Zpos (digits2_pos m) + e)) in
    S754_finite s m' e'
  | _ => x
  end.

Definition sign_bit (f : float_fmt) (s : bool) : Z :=
  if s then (2 ^ (fmt_mw f + fmt_ew f))%Z else 0%Z.

(** The IEEE-754 interchange encoding of a value of the format. *)
Definition float_bits (f : float_fmt) (x : spec_float) : Z :=
  let mw := fmt_mw f in
  let top := (2 ^ fmt_ew f - 1)%Z in
  match x with
  | S754_zero s => sign_bit f s
  | S754_infinity s => (sign_bit f s + top * 2 ^ mw)%Z
  | S754_nan => (top * 2 ^ mw + 2 ^ (mw - 1))%Z
  | S754_finite s m e =>
    if (2 ^ mw <=? Zpos m)%Z
    then (sign_bit f s + (e - emin (fmt_prec f) (fmt_emax f) + 1) * 2 ^ mw
          + (Zpos m - 2 ^ mw))%Z
    else (sign_bit f s + Zpos m)%Z
  end.

Definition float_of_bits (f : float_fmt) (w : Z) : spec_float :=
  let mw := fmt_mw f in
  let s := negb (w / 2 ^ (mw + fmt_ew f) =? 0)%Z in
  let ex := ((w / 2 ^ mw) mod 2 ^ fmt_ew f)%Z in
  let mant := (w mod 2 ^ mw)%Z in
  if (ex =? 0)%Z then
    match mant with
    | Zpos m => S754_finite s m (emin (fmt_prec f) (fmt_emax f))
    | _ => S754_zero s
    end
  else if (ex =? 2 ^ fmt_ew f - 1)%Z then
    if (mant =? 0)%Z then S754_infinity s else S754_nan
  else
    match (mant + 2 ^ mw)%Z with
    | Zpos m => S754_finite s m (ex + emin (fmt_prec f) (fmt_emax f) - 1)
    | _ => S754_nan
    end.

(** [struct.pack(fmt, x)] for a float [x]: a finite value too large for
    the format raises [OverflowError]. *)
Definition struct_pack (f : float_fmt) (x : spec_float) : result bytes :=
  let y := narrow f x in
  if is_finite x && is_inf y then Raise OverflowError
  else Ok (le_split (fmt_size f) (float_bits f y)).

(** [struct.unpack(fmt, data)[0]]: the buffer must have exactly
    [calcsize(fmt)] bytes. *)
Definition struct_unpack (f : float_fmt) (data : bytes) : result spec_float :=
  if Nat.eqb (List.length data) (fmt_size f)
  then Ok (widen (float_of_bits f (le_combine data)))
  else Raise StructError.

(** [float(n)] for an int [n]. *)
Definition float_of_int (n : Z) : result spec_float :=
  let y := binary_normalize 53 1024 n 0 false in
  if is_inf y then Raise OverflowError else Ok y.

(** [int(x)] for a float [x]: truncation towards zero. *)
Definition int_of_float (x : spec_float) : result Z :=
  match x with
  | S754_zero _ => Ok 0%Z
  | S754_infinity _ => Raise OverflowError
  | S754_nan => Raise ValueError
  | S754_finite s m e =>
    let a := match e with
             | Zneg p => (Zpos m / 2 ^ Zpos p)%Z
             | _ => (Zpos m * 2 ^ e)%Z
             end in
    Ok (if s then (- a)%Z else a)
  end.

(** [x == n] for a float [x] and an int [n]: exact numeric comparison. *)
Definition float_eq_int (x : spec_float) (n : Z) : bool :=
  match x with
  | S754_zero _ => (n =? 0)%Z
  | S754_finite s m e =>
    let sm := if s then Zneg m else Zpos m in
    match e with
    | Zneg p => ((Zpos m mod 2 ^ Zpos p =? 0) && (sm / 2 ^ Zpos p =? n))%Z
    | _ => (sm * 2 ^ e =? n)%Z
    end
  | _ => false
  end.

(* ================================================================== *)
(** * Primitive types and host values *)

(** The primitive classes of [proto/primitives.py] and the composite
    classes derived from [ComplexDataType] ([proto/complex.py]).
    [Array type] is the class returned by [Array[type]]; [ComplexData
    qualname map] is a data type with its field-map, in declaration order. *)
Inductive prim : Type :=
| Int8 | Int16 | Int32 | Int64
| UInt8 | UInt16 | UInt32 | UInt64
| Boolean
| E | Float | Double
| Char
| String
| Array (type : prim)
| ComplexData (qualname : string) (map : list (string * prim)).

(** Host values. The class tag is [Some T] for an instance of the
    primitive class [T] and [None] for a plain [int], [float], [str] or
    [list]. An object is an instance of a composite class together with
    its instance dictionary. *)
Inductive value : Type :=
| VNone
| VInt (cls : option prim) (n : Z)
| VFloat (cls : option prim) (x : spec_float)
| VStr (cls : option prim) (s : str)
| VList (cls : option prim) (items : list value)
| VObj (cls : prim) (dict : list (string * value)).

(** Builtin conversions of the host language that the embedding does not
    spell out: parsing a [str] as an [int] or a [float], and [str(x)] of a
    value that is not a [str]. [None] stands for [ValueError]. *)
Record builtins : Type := {
  int_of_str : str -> option Z;
  float_of_str : str -> option spec_float;
  str_of : value -> str
}.

(** [type(v)] when it is a primitive class. *)
Definition type_of (v : value) : option prim :=
  match v with
  | VNone => None
  | VInt c _ | VFloat c _ | VStr c _ | VList c _ => c
  | VObj c _ => Some c
  end.

(** The scalar classes: every class but the arrays and the data types. *)
Definition scalar (T : prim) : Prop :=
  match T with
  | Array _ | ComplexData _ _ => False
  | _ => True
  end.

(** [isinstance(v, Primitive)]. *)
Definition is_primitive (v : value) : bool :=
  match type_of v with Some _ => true | None => false end.

Fixpoint prim_eqb (a b : prim) {struct a} : bool :=
  match a, b with
  | Int8, Int8 | Int16, Int16 | Int32, Int32 | Int64, Int64
  | UInt8, UInt8 | UInt16, UInt16 | UInt32, UInt32 | UInt64, UInt64
  | Boolean, Boolean | E, E | Float, Float | Double, Double
  | Char, Char | String, String => true
  | Array t, Array u => prim_eqb t u
  | ComplexData n fs, ComplexData m gs =>
    String.eqb n m &&
    (fix fields (fs gs : list (string * prim)) {struct fs} : bool :=
       match fs, gs with
       | [], [] => true
       | (k, t) :: fs', (l, u) :: gs' =>
         String.eqb k l && prim_eqb t u && fields fs' gs'
       | _, _ => false
       end) fs gs
  | _, _ => false
  end.

(** [issubclass(k, T)]: the wider integers derive from [Int8] and
    [UInt8], [Float] and [Double] from [E]. *)
Definition issubclass (k T : prim) : bool :=
  prim_eqb k T ||
  match T, k with
  | Int8, (Int16 | Int32 | Int64) => true
  | UInt8, (UInt16 | UInt32 | UInt64) => true
  | E, (Float | Double) => true
  | _, _ => false
  end.

(** [isinstance(v, T)]. *)
Definition isinstance (v : value) (T : prim) : bool :=
  match type_of v with
  | Some k => issubclass k T
  | None => false
  end.

(** [isinstance(v, typing.Iterable)] and [list(v)]. *)
Definition iterable (v : value) : bool :=
  match v with
  | VStr _ _ | VList _ _ => true
  | _ => false
  end.

Definition iterate (v : value) : list value :=
  match v with
  | VStr _ s => List.map (fun c => VStr None [c]) s
  | VList _ items => items
  | _ => []
  end.

(** Truth value of a host value ([not v] is its negation). *)
Definition truthy (v : value) : bool :=
  match v with
  | VNone => false
  | VInt _ n => negb (n =? 0)%Z
  | VFloat _ x => match x with S754_zero _ => false | _ => true end
  | VStr _ s => match s with [] => false | _ => true end
  | VList _ l => match l with [] => false | _ => true end
  | VObj _ _ => true
  end.

(** The class attribute [size] of the fixed-width classes. *)
Definition size (T : prim) : nat :=
  match T with
  | Int8 | UInt8 | Boolean => 1
  | Int16 | UInt16 | E => 2
  | Int32 | UInt32 | Float => 4
  | Int64 | UInt64 | Double => 8
  | _ => 0
  end.

(** The class attribute [fmt] of the float classes. *)
Definition fmt (T : prim) : option float_fmt :=
  match T with
  | E => Some fmt_e
  | Float => Some fmt_f
  | Double => Some fmt_d
  | _ => None
  end.

(* ------------------------------------------------------------------ *)
(** ** Instance dictionaries *)

(** Look a key up and continue with the value found. *)
Definition lookup_k {V A : Type} (d : list (string * V)) (k : string)
  (none : A) (some : V -> A) : A :=
  (fix go (d : list (string * V)) {struct d} : A :=
     match d with
     | [] => none
     | (k', v) :: d' => if String.eqb k k' then some v else go d'
     end) d.

(** [getattr(obj, name)] on the instance dictionary; a missing attribute
    is [AttributeError]. *)
Definition getattr {V : Type} (d : list (string * V)) (name : string) : result V :=
  lookup_k d name (Raise AttributeError) Ok.

(** [name in d]. *)
Definition has_key {V : Type} (d : list (string * V)) (name : string) : bool :=
  lookup_k d name false (fun _ => true).

(** [d[name] = v]: replace in place, or append a new key. *)
Fixpoint dict_set {V : Type} (d : list (string * V)) (name : string) (v : V)
  : list (string * V) :=
  match d with
  | [] => [(name, v)]
  | (k, w) :: d' =>
    if String.eqb name k then (k, v) :: d' else (k, w) :: dict_set d' name v
  end.

(* ================================================================== *)
(** * The codec *)

Section Codec.

Variable B : builtins.

(* ------------------------------------------------------------------ *)
(** ** Constructors: [T(x)] *)

(** [int(x)]. *)
Definition py_int (x : value) : result Z :=
  match x with
  | VInt _ n => Ok n
  | VFloat _ f => int_of_float f
  | VStr _ s =>
    match int_of_str B s with Some n => Ok n | None => Raise ValueError end
  | _ => Raise TypeError
  end.

(** [float(x)]. *)
Definition py_float (x : value) : result spec_float :=
  match x with
  | VFloat _ f => Ok f
  | VInt _ n => float_of_int n
  | VStr _ s =>
    match float_of_str B s with Some f => Ok f | None => Raise ValueError end
  | _ => Raise TypeError
  end.

(** [str(x)]. *)
Definition py_str (x : value) : str :=
  match x with
  | VStr _ s => s
  | _ => str_of B x
  end.

(** The sequence that [Array.__init__(self, *items)] builds the array
    from: [items[0]] when there is exactly one argument and it is iterable,
    the arguments themselves otherwise. *)
Definition input_sequence (items : list value) : list value :=
  match items with
  | [x] => if iterable x then iterate x else items
  | _ => items
  end.

(** [Array.__init__(self, *items)] for the class [Array[type]], given the
    constructor of the element class. A single iterable argument is
    unpacked; every item that is not an instance of [type] is replaced by
    [type(item)], and any exception of that call becomes [TypeError]. *)
Definition Array_init_with (ctor : value -> result value) (type : prim)
  (items : list value) : result value :=
  let items := input_sequence items in
  items <- mapM (fun item =>
                   if negb (isinstance item type) then
                     match ctor item with
                     | Ok item' => Ok item'
                     | Raise _ => Raise TypeError
                     end
                   else Ok item) items ;;
  Ok (VList (Some (Array type)) items).

(** [T(x)]: calling a primitive class on one positional argument. The
    integer classes do not check the range; [Char.__init__] rejects a
    falsy argument; a data type accepts keyword arguments only. *)
Fixpoint construct (T : prim) (x : value) {struct T} : result value :=
  match T with
  | Int8 | Int16 | Int32 | Int64 | UInt8 | UInt16 | UInt32 | UInt64 | Boolean =>
    n <- py_int x ;; Ok (VInt (Some T) n)
  | E | Float | Double =>
    f <- py_float x ;; Ok (VFloat (Some T) f)
  | Char =>
    if negb (truthy x) then Raise ValueError
    else Ok (VStr (Some Char) (py_str x))
  | String => Ok (VStr (Some String) (py_str x))
  | Array type => Array_init_with (construct type) type [x]
  | ComplexData _ _ => Raise TypeError
  end.

Definition Array_init (type : prim) (items : list value) : result value :=
  Array_init_with (construct type) type items.

(** [ComplexDataType.__init__(self, **kwargs)]: every keyword named in the
    field-map becomes an attribute; what is left goes to the base
    constructor, which accepts no keyword. *)
Definition ComplexData_init (T : prim) (kwargs : list (string * value))
  : result value :=
  match T with
  | ComplexData _ map =>
    let dict :=
      fold_left (fun d kv => if has_key map (fst kv)
                             then dict_set d (fst kv) (snd kv) else d)
                kwargs [] in
    let kwargs := filter (fun kv => negb (has_key map (fst kv))) kwargs in
    match kwargs with
    | [] => Ok (VObj T dict)
    | _ => Raise TypeError
    end
  | _ => Raise TypeError
  end.

(* ------------------------------------------------------------------ *)
(** ** [measure] and [deserialize] (class methods) *)

(** [Int8.deserialize] and [UInt8.deserialize], inherited by the wider
    classes: [cls.from_bytes(data[: cls.size], ...)]. *)
Definition Int_deserialize (cls : prim) (signed : bool) (data : bytes) : value :=
  VInt (Some cls) (int_from_bytes signed (slice_to (size cls) data)).

(** [Boolean.deserialize]: [cls.from_bytes(data, byteorder="little")]. *)
Definition Boolean_deserialize (data : bytes) : value :=
  VInt (Some Boolean) (int_from_bytes false data).

(** The [int] held by a value, for [range(n)]. *)
Definition int_value (v : value) : Z :=
  match v with VInt _ n => n | _ => 0%Z end.

Fixpoint measure (T : prim) (data : bytes) {struct T} : result nat :=
  match T with
  | Int8 | Int16 | Int32 | Int64 | UInt8 | UInt16 | UInt32 | UInt64
  | Boolean | E | Float | Double => Ok (size T)
  | Char => Ok 1
  | String => Ok (Z.to_nat (int_from_bytes false (slice_to 2 data)) + 2)
  | Array type =>
    let length := size UInt8 in
    let items := int_value (Int_deserialize UInt8 false data) in
    repeatM (Z.to_nat items)
      (fun length => m <- measure type (slice_from length data) ;; Ok (length + m))
      length
  | ComplexData _ map =>
    foldM (fun length (field : string * prim) =>
             let '(_, primitive) := field in
             m <- measure primitive (slice_from length data) ;;
             Ok (length + m))
          map 0
  end.

Fixpoint deserialize (T : prim) (data : bytes) {struct T} : result value :=
  match T with
  | Int8 | Int16 | Int32 | Int64 => Ok (Int_deserialize T true data)
  | UInt8 | UInt16 | UInt32 | UInt64 => Ok (Int_deserialize T false data)
  | Boolean => Ok (Boolean_deserialize data)
  | E | Float | Double =>
    match fmt T with
    | Some f => x <- struct_unpack f (slice_to (size T) data) ;; Ok (VFloat None x)
    | None => Raise AttributeError
    end
  | Char =>
    match data with
    | b :: _ => construct Char (VStr None [byte.unsigned b])
    | [] => Raise IndexError
    end
  | String =>
    m <- measure String data ;;
    s <- utf8_decode (slice 2 m data) ;;
    construct String (VStr None s)
  | Array type =>
    m <- measure T data ;;
    let data := slice_to m data in
    let length := int_value (Int_deserialize UInt8 false data) in
    st <- repeatM (Z.to_nat length)
            (fun st : list value * nat =>
               let '(items, offset) := st in
               item <- deserialize type (slice_from offset data) ;;
               m <- measure type (slice_from offset data) ;;
               Ok (items ++ [item], offset + m))
            ([], size UInt8) ;;
    Array_init type [VList None (fst st)]
  | ComplexData _ map =>
    m <- measure T data ;;
    let data := slice_to m data in
    st <- foldM (fun (st : list (string * value) * nat) (field : string * prim) =>
                   let '(kwargs, offset) := st in
                   let '(attr, primitive) := field in
                   v <- deserialize primitive (slice_from offset data) ;;
                   m <- measure primitive (slice_from offset data) ;;
                   Ok (dict_set kwargs attr v, offset + m))
                map ([], 0) ;;
    ComplexData_init T (fst st)
  end.

(* ------------------------------------------------------------------ *)
(** ** [serialize] (instance method) *)

(** [self.to_bytes(length, byteorder="little", signed=signed)]: only an
    [int] has the method. *)
Definition Int_serialize (length : nat) (signed : bool) (self : value)
  : result bytes :=
  match self with
  | VInt _ n => int_to_bytes length signed n
  | _ => Raise AttributeError
  end.

(** [E.serialize]: [struct.pack(self.fmt, self)]; the format is the class
    attribute of the instance. *)
Definition E_serialize (self : value) : result bytes :=
  match self with
  | VFloat (Some k) x =>
    match fmt k with
    | Some f => struct_pack f x
    | None => Raise AttributeError
    end
  | _ => Raise AttributeError
  end.

(** [Char.serialize]: [self[0].encode("utf8")]. *)
Definition Char_serialize (self : value) : result bytes :=
  match self with
  | VStr _ (c :: _) => utf8_encode [c]
  | VList _ (VStr _ s :: _) => utf8_encode s
  | VList _ (_ :: _) => Raise AttributeError
  | VStr _ [] | VList _ [] => Raise IndexError
  | _ => Raise TypeError
  end.

(** [String.serialize]: 2-byte little-endian length, then the UTF-8 form. *)
Definition String_serialize (self : value) : result bytes :=
  match self with
  | VStr _ s =>
    encoded <- utf8_encode s ;;
    header <- int_to_bytes 2 false (Z.of_nat (List.length encoded)) ;;
    Ok (header ++ encoded)
  | _ => Raise AttributeError
  end.

(** [T.serialize(self)]: the function [serialize] of class [T] applied to
    [self]. [fuel] bounds the depth of nested calls; running out of it is
    [RecursionError]. *)
Fixpoint serialize_as (fuel : nat) (T : prim) (self : value) {struct fuel}
  : result bytes :=
  match fuel with
  | O => Raise RecursionError
  | S fuel =>
    (* [v.serialize()]: dispatch on the class of [v] *)
    let method (v : value) : result bytes :=
      match type_of v with
      | Some k => serialize_as fuel k v
      | None => Raise AttributeError
      end in
    match T with
    | Int8 => Int_serialize 1 true self
    | Boolean => Int_serialize 1 false self
    | Int16 => Int_serialize 2 true self
    | Int32 => Int_serialize 4 true self
    | Int64 => Int_serialize 8 true self
    | UInt8 => Int_serialize 1 false self
    | UInt16 => Int_serialize 2 false self
    | UInt32 => Int_serialize 4 false self
    | UInt64 => Int_serialize 8 false self
    | E | Float | Double => E_serialize self
    | Char => Char_serialize self
    | String => String_serialize self
    | Array _ =>
      match self with
      | VList c items =>
        header <- Int_serialize 1 false
                    (VInt (Some UInt8) (Z.of_nat (List.length items))) ;;
        match c with
        | Some (Array type) =>
          chunks <- mapM (serialize_as fuel type) items ;;
          Ok (header ++ List.concat chunks)
        | _ => Raise AttributeError
        end
      | VStr _ s =>
        header <- Int_serialize 1 false
                    (VInt (Some UInt8) (Z.of_nat (List.length s))) ;;
        Raise AttributeError
      | _ => Raise TypeError
      end
    | ComplexData _ _ =>
      match self with
      | VObj (ComplexData _ map) dict =>
        foldM (fun (result' : bytes) (field : string * prim) =>
                 let '(attr, primitive) := field in
                 value <- getattr dict attr ;;
                 chunk <- (if is_primitive value then method value
                           else v <- construct primitive value ;; method v) ;;
                 Ok (result' ++ chunk))
              map []
      | _ => Raise ValueError
      end
    end
  end.

(** [v.serialize()]. *)
Definition serialize (fuel : nat) (v : value) : result bytes :=
  match type_of v with
  | Some T => serialize_as fuel T v
  | None => Raise AttributeError
  end.

(* ------------------------------------------------------------------ *)
(** ** Equality *)

Fixpoint str_eqb (s t : str) : bool :=
  match s, t with
  | [], [] => true
  | c :: s', d :: t' => (c =? d)%Z && str_eqb s' t'
  | _, _ => false
  end.

(** [a == b]. Numbers compare by value, strings and lists by content
    (lists of different lengths are unequal without looking at the
    items). For a data type instance [a] this is
    [ComplexDataType.__eq__]: when [b] is a composite too, every attribute
    named in the field-map of [a] is fetched from both and compared with
    [!=]; otherwise the comparison falls back to identity and is false.
    Values are compared as distinct objects. *)
Fixpoint py_eq (a b : value) {struct a} : result bool :=
  match a, b with
  | VNone, VNone => Ok true
  | VInt _ n, VInt _ m => Ok (n =? m)%Z
  | VInt _ n, VFloat _ x => Ok (float_eq_int x n)
  | VFloat _ x, VInt _ n => Ok (float_eq_int x n)
  | VFloat _ x, VFloat _ y => Ok (SFeqb x y)
  | VStr _ s, VStr _ t => Ok (str_eqb s t)
  | VList _ l1, VList _ l2 =>
    if negb (Nat.eqb (List.length l1) (List.length l2)) then Ok false
    else
      (fix items (l1 l2 : list value) {struct l1} : result bool :=
         match l1, l2 with
         | x :: l1', y :: l2' =>
           same <- py_eq x y ;;
           if same then items l1' l2' else Ok false
         | _, _ => Ok true
         end) l1 l2
  | VObj (ComplexData _ map) self, VObj _ other =>
    allM (fun field : string * prim =>
            let attr := fst field in
            lookup_k self attr (Raise AttributeError) (fun x =>
              y <- getattr other attr ;;
              differ <- (same <- py_eq x y ;; Ok (negb same)) ;;
              Ok (negb differ)))
         map
  | _, _ => Ok false
  end.


(* ------------------------------------------------------------------ *)
(** ** List operations of [Array] *)

(** [list.pop(self, index)]: a negative index counts from the end; an
    index out of range is [IndexError]. Returns the removed item and the
    list that remains. *)
Definition list_pop (items : list value) (index : Z) : result (value * list value) :=
  let n := Z.of_nat (List.length items) in
  let i := if (index <? 0)%Z then (index + n)%Z else index in
  if ((0 <=? i) && (i <? n))%Z then
    match nth_error items (Z.to_nat i) with
    | Some x => Ok (x, firstn (Z.to_nat i) items ++ skipn (S (Z.to_nat i)) items)
    | None => Raise IndexError
    end
  else Raise IndexError.

(** [Array.pop(self, index=-1)]: calls [super().pop(index)] and drops its
    result. Gives the value returned and the array after the call. *)
Definition Array_pop (self : value) (index : Z) : result (value * value) :=
  match self with
  | VList c items =>
    r <- list_pop items index ;;
    Ok (VNone, VList c (snd r))
  | _ => Raise AttributeError
  end.

(** The check that [append], [insert] and [extend] make on an item:
    [self.type(item)] unless the item is an instance of [self.type]
    already; any exception of the call becomes [TypeError]. *)
Definition Array_coerce (type : prim) (item : value) : result value :=
  if negb (isinstance item type) then
    match construct type item with
    | Ok item' => Ok item'
    | Raise _ => Raise TypeError
    end
  else Ok item.

(** [list.insert(self, index, item)]: a negative index counts from the
    end, and an index beyond either end is clamped to that end. *)
Definition list_insert (items : list value) (index : Z) (item : value)
  : list value :=
  let n := Z.of_nat (List.length items) in
  let i := if (index <? 0)%Z then (index + n)%Z else index in
  let i := if (i <? 0)%Z then 0%Z else if (n <? i)%Z then n else i in
  firstn (Z.to_nat i) items ++ item :: skipn (Z.to_nat i) items.

(** The methods below are given for [self] an instance of [Array[type]]
    that holds [items]; each gives the items of the array after the
    call (the methods return [None]). *)

(** [Array.append(self, item)]. *)
Definition Array_append (type : prim) (items : list value) (item : value)
  : result (list value) :=
  item <- Array_coerce type item ;;
  Ok (items ++ [item]).

(** [Array.insert(self, index, item)]. *)
Definition Array_insert (type : prim) (items : list value) (index : Z)
  (item : value) : result (list value) :=
  item <- Array_coerce type item ;;
  Ok (list_insert items index item).

(** [Array.extend(self, iterable)], for an iterable other than [self]: the
    items are checked and appended one at a time, so the array keeps the
    items appended before an exception. Gives the items of the array after
    the call, and [None] or the exception. *)
Definition Array_extend (type : prim) (items : list value) (iterable' : value)
  : list value * result value :=
  if iterable iterable' then
    (fix loop (pending items : list value) {struct pending}
       : list value * result value :=
       match pending with
       | [] => (items, Ok VNone)
       | item :: pending' =>
         match Array_coerce type item with
         | Ok item' => loop pending' (items ++ [item'])
         | Raise e => (items, Raise e)
         end
       end) (iterate iterable') items
  else (items, Raise TypeError).

(** [Array.copy(self)]: [type(self)(super().copy())], the constructor
    applied to a plain list of the items. *)
Definition Array_copy (type : prim) (items : list value) : result value :=
  Array_init type [VList None items].

End Codec.

(* ================================================================== *)
(** * The measures, as the specification words them *)

(** Measure of [count] consecutive elements of one type: the measure of
    the first one on the buffer, plus the measure of the others on the
    buffer advanced past it. No element is decoded. *)
Fixpoint measure_elements (type : prim) (count : nat) (data : bytes)
  {struct count} : result nat :=
  match count with
  | O => Ok 0
  | S count' =>
    m <- measure type data ;;
    rest <- measure_elements type count' (slice_from m data) ;;
    Ok (m + rest)
  end.

(** Measure of the fields of a composite: the sum of each field's measure
    on the progressively offset buffer. *)
Fixpoint measure_fields (types : list prim) (data : bytes) {struct types}
  : result nat :=
  match types with
  | [] => Ok 0
  | primitive :: types' =>
    m <- measure primitive data ;;
    rest <- measure_fields types' (slice_from m data) ;;
    Ok (m + rest)
  end.

(** [measure] reads only the bytes that it counts: on a buffer that holds
    them, cutting the buffer anywhere after them leaves the measure
    unchanged. *)
Definition measure_local (T : prim) : Prop :=
  forall data m n,
    measure T data = Ok m -> (m <= List.length data)%nat -> (m <= n)%nat ->
    measure T (slice_to n data) = Ok m.

(** Bytes added after the ones that [measure] counts do not change the
    measure. *)
Definition measure_extends (T : prim) : Prop :=
  forall d g m,
    measure T d = Ok m -> (m <= List.length d)%nat -> measure T (d ++ g) = Ok m.

(* ================================================================== *)
(** * Well-formed types and values *)

(** Range of the integers a fixed-width integer class can encode; a
    [Boolean] is encoded on one unsigned byte. *)
Definition int_bounds (T : prim) : option (Z * Z) :=
  match T with
  | Int8 => Some (-128, 128)
  | Int16 => Some (-32768, 32768)
  | Int32 => Some (-2147483648, 2147483648)
  | Int64 => Some (-9223372036854775808, 9223372036854775808)
  | UInt8 | Boolean => Some (0, 256)
  | UInt16 => Some (0, 65536)
  | UInt32 => Some (0, 4294967296)
  | UInt64 => Some (0, 18446744073709551616)
  | _ => None
  end%Z.











Definition is_Boolean (T : prim) : bool :=
  match T with Boolean => true | _ => false end.



(* ================================================================== *)
(** * Encoding and decoding of one value *)





(* ================================================================== *)
(** * A host instance for the examples *)

Fixpoint digits_value (acc : Z) (s : str) : option Z :=
  match s with
  | [] => Some acc
  | c :: s' =>
    if ((48 <=? c) && (c <=? 57))%Z
    then digits_value (10 * acc + (c - 48))%Z s'
    else None
  end.

(** [int(s)] on an optional sign followed by ASCII digits. *)
Definition ascii_int_of_str (s : str) : option Z :=
  match s with
  | [] | [43%Z] | [45%Z] => None
  | 45%Z :: s' => option_map Z.opp (digits_value 0 s')
  | 43%Z :: s' => digits_value 0 s'
  | _ => digits_value 0 s
  end.

(** The builtins restricted to what the examples below exercise: decimal
    integer literals are parsed; no text is accepted as a float; [str(x)]
    is only given for [None]. *)
Definition host : builtins :=
  {| int_of_str := ascii_int_of_str;
     float_of_str := fun _ => None;
     str_of := fun v => match v with
                        | VNone => [78; 111; 110; 101]%Z
                        | _ => []
                        end |}.
(* ================================================================== *)
(** * Basic facts: the error monad and loops *)

Lemma bind_Ok {A B : Type} (c : result A) (k : A -> result B) (b : B) :
  bind c k = Ok b -> exists a, c = Ok a /\ k a = Ok b.
Proof. destruct c as [a|e]; simpl; intros H; [eauto | discriminate]. Qed.

Lemma returns_Ok {A : Type} (a : A) : returns (Ok a).
Proof. exists a; reflexivity. Qed.

Lemma raises_Raise {A : Type} (e : exn) : raises (@Raise A e).
Proof. exists e; reflexivity. Qed.

Lemma raises_not_returns {A : Type} (c : result A) : raises c -> ~ returns c.
Proof. intros [e ->] [a H]; discriminate. Qed.

Lemma mapM_length {A B : Type} (f : A -> result B) (xs : list A) (ys : list B) :
  mapM f xs = Ok ys -> List.length ys = List.length xs.
Proof.
  revert ys; induction xs as [|x xs IH]; simpl; intros ys H.
  - injection H as <-; reflexivity.
  - destruct (f x) as [y|]; simpl in H; [|discriminate].
    destruct (mapM f xs) as [ys'|]; simpl in H; [|discriminate].
    injection H as <-; simpl; f_equal; apply IH; reflexivity.
Qed.

Lemma mapM_Forall2 {A B : Type} (f : A -> result B) (xs : list A) (ys : list B) :
  mapM f xs = Ok ys <-> Forall2 (fun x y => f x = Ok y) xs ys.
Proof.
  split.
  - revert ys; induction xs as [|x xs IH]; simpl; intros ys H.
    + injection H as <-; constructor.
    + destruct (f x) as [y|] eqn:Hy; simpl in H; [|discriminate].
      destruct (mapM f xs) as [ys'|]; simpl in H; [|discriminate].
      injection H as <-; constructor; auto.
  - induction 1 as [|x y xs ys Hxy _ IH]; simpl; [reflexivity|].
    rewrite Hxy, IH; reflexivity.
Qed.

Lemma mapM_ext {A B : Type} (f g : A -> result B) (xs : list A) :
  (forall x, In x xs -> f x = g x) -> mapM f xs = mapM g xs.
Proof.
  induction xs as [|x xs IH]; simpl; intros H; [reflexivity|].
  rewrite (H x) by auto. rewrite IH by auto. reflexivity.
Qed.

(* ================================================================== *)
(** * Basic facts: integers as little-endian bytes *)


Lemma int_to_bytes_unsigned_Ok (l : nat) (n : Z) :
  (0 <= n < 2 ^ (8 * Z.of_nat l))%Z ->
  int_to_bytes l false n = Ok (le_split l n).
Proof.
  intros [H0 H1]; unfold int_to_bytes.
  apply Z.leb_le in H0; apply Z.ltb_lt in H1; rewrite H0, H1; reflexivity.
Qed.

Lemma int_to_bytes_unsigned_overflow (l : nat) (n : Z) :
  (2 ^ (8 * Z.of_nat l) <= n)%Z ->
  int_to_bytes l false n = Raise OverflowError.
Proof.
  intros H; unfold int_to_bytes.
  apply Z.ltb_ge in H; rewrite H, andb_false_r; reflexivity.
Qed.

Lemma firstn_length_app {A : Type} (l : list A) (g : list A) :
  firstn (List.length l) (l ++ g) = l.
Proof.
  rewrite firstn_app, Nat.sub_diag, firstn_all; simpl; apply app_nil_r.
Qed.

Lemma firstn_exact_app {A : Type} (n : nat) (l g : list A) :
  List.length l = n -> firstn n (l ++ g) = l.
Proof. intros <-. apply firstn_length_app. Qed.




Lemma int_from_bytes_unsigned (data : bytes) :
  int_from_bytes false data = le_combine data.
Proof. destruct data; reflexivity. Qed.

Lemma int_from_bytes_unsigned_bound (data : bytes) :
  (0 <= int_from_bytes false data < 2 ^ (8 * Z.of_nat (List.length data)))%Z.
Proof. rewrite int_from_bytes_unsigned. apply le_combine_bound. Qed.

(* ================================================================== *)
(** * Basic facts: UTF-8 *)

Lemma unsigned_of_Z_small (z : Z) :
  (0 <= z < 256)%Z -> byte.unsigned (byte.of_Z z) = z.
Proof.
  intros H. rewrite byte.unsigned_of_Z. unfold byte.wrap.
  apply Z.mod_small. lia.
Qed.

Ltac zdiv := Z.to_euclidean_division_equations; lia.



Lemma is_surrogate_false (c : Z) :
  ~ (55296 <= c <= 57343)%Z -> is_surrogate c = false.
Proof.
  intros H. unfold is_surrogate. apply andb_false_iff.
  destruct (Z.leb_spec 55296 c); [right; apply Z.leb_gt; lia | left; reflexivity].
Qed.



Section Utf8.

Local Arguments Z.add : simpl never.
Local Arguments Z.sub : simpl never.
Local Arguments Z.mul : simpl never.
Local Arguments Z.div : simpl never.
Local Arguments Z.modulo : simpl never.



(** An ASCII character is encoded as the single byte of its code. *)
Lemma utf8_encode_ascii (c : Z) :
  (0 <= c < 128)%Z -> utf8_encode [c] = Ok [byte.of_Z c].
Proof.
  intros H. unfold utf8_encode, utf8_encode_cp, scalar_value, is_surrogate. simpl.
  destruct (Z.leb_spec 0 c); [|lia].
  destruct (Z.ltb_spec c 1114112); [|lia].
  destruct (Z.leb_spec 55296 c); [lia|]. simpl.
  destruct (Z.ltb_spec c 128); [reflexivity | lia].
Qed.

(** A character outside ASCII is encoded on at least two bytes. *)
Lemma utf8_encode_non_ascii (c : Z) (bs : bytes) :
  (128 <= c)%Z -> utf8_encode [c] = Ok bs -> (2 <= List.length bs)%nat.
Proof.
  intros H. unfold utf8_encode, utf8_encode_cp. simpl.
  destruct (scalar_value c); simpl; [|discriminate].
  destruct (Z.ltb_spec c 128); [lia|].
  destruct (c <? 2048)%Z; [|destruct (c <? 65536)%Z];
    simpl; intros E; injection E as <-; simpl; lia.
Qed.

End Utf8.

(* ================================================================== *)
(** * Basic facts: floats *)

Lemma digits2_pos_bounds (m : positive) :
  (2 ^ (Zpos (digits2_pos m) - 1) <= Zpos m < 2 ^ Zpos (digits2_pos m))%Z.
Proof.
  induction m as [p IH|p IH|]; cbn [digits2_pos].
  - rewrite Pos2Z.inj_succ.
    replace (Z.succ (Zpos (digits2_pos p)) - 1)%Z with (Z.succ (Zpos (digits2_pos p) - 1))%Z by lia.
    rewrite !Z.pow_succ_r by lia. lia.
  - rewrite Pos2Z.inj_succ.
    replace (Z.succ (Zpos (digits2_pos p)) - 1)%Z with (Z.succ (Zpos (digits2_pos p) - 1))%Z by lia.
    rewrite !Z.pow_succ_r by lia. lia.
  - simpl. lia.
Qed.

(** A mantissa/exponent pair of a format is either normal (full-width
    mantissa) or subnormal (smallest exponent). *)
Lemma bounded_cases (prec emax : Z) (m : positive) (e : Z) :
  (0 < prec)%Z ->
  bounded prec emax m e = true ->
  (e <= emax - prec)%Z /\ (Zpos m < 2 ^ prec)%Z /\
  ((2 ^ (prec - 1) <= Zpos m /\ emin prec emax <= e)%Z \/
   (Zpos m < 2 ^ (prec - 1) /\ e = emin prec emax)%Z).
Proof.
  intros Hp H. unfold bounded, canonical_mantissa, fexp in H.
  apply andb_true_iff in H as [Hc He].
  apply Z.eqb_eq in Hc. apply Z.leb_le in He.
  pose proof (digits2_pos_bounds m) as [Hlo Hhi].
  set (d := Zpos (digits2_pos m)) in *.
  assert (Hd : (0 < d)%Z) by (unfold d; lia).
  split; [exact He|].
  destruct (Z.max_spec (d + e - prec) (emin prec emax)) as [[Hlt Hmax]|[Hge Hmax]];
    rewrite Hmax in Hc.
  - (* subnormal: e = emin, d < prec *)
    assert (Hdp : (d <= prec - 1)%Z) by lia.
    assert (Hpw : (2 ^ d <= 2 ^ (prec - 1))%Z) by (apply Z.pow_le_mono_r; lia).
    assert (Hpw' : (2 ^ (prec - 1) <= 2 ^ prec)%Z) by (apply Z.pow_le_mono_r; lia).
    split; [lia|]. right. split; [lia | auto].
  - (* normal: d = prec *)
    assert (Hdp : d = prec) by lia. rewrite Hdp in *.
    split; [lia|]. left. split; [lia | lia].
Qed.

(** Evaluation of the closed arithmetic left by the constants of a
    concrete format. *)
Ltac is_pos_num p :=
  lazymatch p with
  | xH => idtac
  | xO ?q => is_pos_num q
  | xI ?q => is_pos_num q
  end.

Ltac is_Z_num z :=
  lazymatch z with
  | Z0 => idtac
  | Zpos ?p => is_pos_num p
  | Zneg ?p => is_pos_num p
  end.

Ltac eval_closed_step :=
  match goal with
  | |- context [Z.of_nat (S ?n)] =>
    let v := eval vm_compute in (Z.of_nat (S n)) in
    is_Z_num v; change (Z.of_nat (S n)) with v
  | |- context [(?a + ?b)%Z] =>
    is_Z_num a; is_Z_num b;
    let v := eval vm_compute in (a + b)%Z in change (a + b)%Z with v
  | |- context [(?a - ?b)%Z] =>
    is_Z_num a; is_Z_num b;
    let v := eval vm_compute in (a - b)%Z in change (a - b)%Z with v
  | |- context [(?a * ?b)%Z] =>
    is_Z_num a; is_Z_num b;
    let v := eval vm_compute in (a * b)%Z in change (a * b)%Z with v
  | |- context [(?a ^ ?b)%Z] =>
    is_Z_num a; is_Z_num b;
    let v := eval vm_compute in (a ^ b)%Z in change (a ^ b)%Z with v
  | |- context [(- ?a)%Z] =>
    is_Z_num a;
    let v := eval vm_compute in (- a)%Z in
    lazymatch a with Z0 => idtac | _ => idtac end;
    progress change (- a)%Z with v
  end.

Ltac fmt_consts :=
  cbv [fmt_mw fmt_ew fmt_prec fmt_emax fmt_size emin sign_bit];
  repeat eval_closed_step.

Lemma float_bits_range (f : float_fmt) (y : spec_float) :
  valid_binary (fmt_prec f) (fmt_emax f) y = true ->
  (0 <= float_bits f y < 2 ^ (8 * Z.of_nat (fmt_size f)))%Z.
Proof.
  destruct y as [s|s| |s m e]; intros Hv.
  - destruct f, s; vm_compute; split; congruence.
  - destruct f, s; vm_compute; split; congruence.
  - destruct f; vm_compute; split; congruence.
  - apply bounded_cases in Hv; [|destruct f; reflexivity].
    revert Hv. unfold float_bits.
    destruct f; fmt_consts; intros (He & Hm & Hc);
      match goal with |- context [if ?c then _ else _] => destruct c end;
      destruct s; lia.
Qed.

(** Splitting a word into a sign, an exponent field and a mantissa
    field. *)
Lemma fields_split (P Q sg ex mant : Z) :
  (0 < P)%Z -> (0 < Q)%Z -> (0 <= mant < P)%Z -> (0 <= ex < Q)%Z ->
  (0 <= sg)%Z ->
  let w := (sg * (P * Q) + ex * P + mant)%Z in
  (w / (P * Q) = sg /\ (w / P) mod Q = ex /\ w mod P = mant)%Z.
Proof.
  intros HP HQ Hm He Hs w.
  assert (Hlow : (0 <= ex * P + mant < P * Q)%Z) by nia.
  repeat split.
  - unfold w. replace (sg * (P * Q) + ex * P + mant)%Z
      with ((ex * P + mant) + sg * (P * Q))%Z by ring.
    rewrite Z.div_add by nia. rewrite Z.div_small by assumption. lia.
  - unfold w. replace (sg * (P * Q) + ex * P + mant)%Z
      with (mant + (sg * Q + ex) * P)%Z by ring.
    rewrite Z.div_add by lia. rewrite Z.div_small by assumption.
    replace (0 + (sg * Q + ex))%Z with (ex + sg * Q)%Z by ring.
    rewrite Z.mod_add by lia. apply Z.mod_small. assumption.
  - unfold w. replace (sg * (P * Q) + ex * P + mant)%Z
      with (mant + (sg * Q + ex) * P)%Z by ring.
    rewrite Z.mod_add by lia. apply Z.mod_small. assumption.
Qed.

Lemma fmt_widths (f : float_fmt) : (0 < fmt_mw f /\ 0 < fmt_ew f)%Z.
Proof. destruct f; vm_compute; split; reflexivity. Qed.

(** Decoding a bit pattern given by its sign, exponent and mantissa
    fields. *)
Lemma float_of_bits_fields (f : float_fmt) (s : bool) (ex mant : Z) :
  (0 <= ex < 2 ^ fmt_ew f)%Z ->
  (0 <= mant < 2 ^ fmt_mw f)%Z ->
  float_of_bits f (sign_bit f s + ex * 2 ^ fmt_mw f + mant) =
  if (ex =? 0)%Z then
    match mant with
    | Zpos m => S754_finite s m (emin (fmt_prec f) (fmt_emax f))
    | _ => S754_zero s
    end
  else if (ex =? 2 ^ fmt_ew f - 1)%Z then
    if (mant =? 0)%Z then S754_infinity s else S754_nan
  else
    match (mant + 2 ^ fmt_mw f)%Z with
    | Zpos m => S754_finite s m (ex + emin (fmt_prec f) (fmt_emax f) - 1)
    | _ => S754_nan
    end.
Proof.
  intros Hex Hmant.
  destruct (fmt_widths f) as [Hmw Hew].
  assert (HP : (0 < 2 ^ fmt_mw f)%Z) by (apply Z.pow_pos_nonneg; lia).
  assert (HQ : (0 < 2 ^ fmt_ew f)%Z) by (apply Z.pow_pos_nonneg; lia).
  set (sg := if s then 1%Z else 0%Z).
  assert (Hsg : (0 <= sg)%Z) by (unfold sg; destruct s; lia).
  destruct (fields_split HP HQ Hmant Hex Hsg)
    as (H1 & H2 & H3).
  assert (Hw : (sign_bit f s + ex * 2 ^ fmt_mw f + mant
                = sg * (2 ^ fmt_mw f * 2 ^ fmt_ew f) + ex * 2 ^ fmt_mw f + mant)%Z).
  { unfold sign_bit, sg. rewrite Z.pow_add_r by lia. destruct s; ring. }
  rewrite Hw. unfold float_of_bits. cbv zeta.
  rewrite Z.pow_add_r by lia. rewrite H1, H2, H3.
  assert (Hs : negb (sg =? 0)%Z = s) by (unfold sg; destruct s; reflexivity).
  rewrite Hs. reflexivity.
Qed.

Lemma float_of_bits_bits (f : float_fmt) (y : spec_float) :
  valid_binary (fmt_prec f) (fmt_emax f) y = true ->
  float_of_bits f (float_bits f y) = y.
Proof.
  destruct y as [s|s| |s m e]; intros Hv.
  - destruct f, s; reflexivity.
  - destruct f, s; reflexivity.
  - destruct f; reflexivity.
  - apply bounded_cases in Hv; [|destruct f; reflexivity].
    destruct Hv as (He & Hm & Hc).
    unfold float_bits. cbv zeta.
    destruct (Z.leb_spec (2 ^ fmt_mw f) (Zpos m)) as [Hn|Hn].
    + (* normal *)
      rewrite float_of_bits_fields.
      * assert (Hz : (e - emin (fmt_prec f) (fmt_emax f) + 1 =? 0)%Z = false).
        { apply Z.eqb_neq. revert He Hm Hc Hn.
          destruct f; fmt_consts; lia. }
        assert (Ht : (e - emin (fmt_prec f) (fmt_emax f) + 1 =? 2 ^ fmt_ew f - 1)%Z = false).
        { apply Z.eqb_neq. revert He Hm Hc Hn.
          destruct f; fmt_consts; lia. }
        rewrite Hz, Ht.
        replace (Zpos m - 2 ^ fmt_mw f + 2 ^ fmt_mw f)%Z with (Zpos m) by lia.
        f_equal. lia.
      * revert He Hm Hc Hn. destruct f; fmt_consts; lia.
      * revert He Hm Hc Hn. destruct f; fmt_consts; lia.
    + (* subnormal *)
      replace (sign_bit f s + Zpos m)%Z
        with (sign_bit f s + 0 * 2 ^ fmt_mw f + Zpos m)%Z by lia.
      rewrite float_of_bits_fields.
      * simpl. f_equal.
        revert He Hm Hc Hn. destruct f; fmt_consts; lia.
      * destruct f; fmt_consts; lia.
      * lia.
Qed.



Lemma iter_pos_iter {A : Type} (f : A -> A) (p : positive) (x : A) :
  iter_pos f p x = Pos.iter f x p.
Proof.
  revert x; induction p as [p IH|p IH|]; intros x; simpl.
  - rewrite !IH. rewrite Pos.iter_swap. f_equal. rewrite Pos.iter_swap. reflexivity.
  - rewrite !IH. reflexivity.
  - reflexivity.
Qed.

Lemma digits2_pos_shift (m k : positive) :
  digits2_pos (Pos.iter xO m k) = (digits2_pos m + k)%positive.
Proof.
  induction k as [|k IH] using Pos.peano_ind.
  - simpl. lia.
  - rewrite Pos.iter_succ. cbn [digits2_pos]. rewrite IH. lia.
Qed.

(** Shifting right by [k] undoes a left shift by [k], exactly. *)
Lemma shr_shift (m k : positive) :
  iter_pos shr_1 k (Build_shr_record (Zpos (Pos.iter xO m k)) false false)
  = Build_shr_record (Zpos m) false false.
Proof.
  rewrite iter_pos_iter.
  induction k as [|k IH] using Pos.peano_ind.
  - reflexivity.
  - rewrite (Pos.iter_succ_r k _ shr_1). rewrite (Pos.iter_succ k _ xO).
    cbn [shr_1 orb]. exact IH.
Qed.

(** Rounding a value that the format already holds returns it. *)
Lemma binary_round_shifted (prec emax : Z) (s : bool) (m : positive) (e : Z)
  (m' : positive) (e' : Z) :
  bounded prec emax m e = true ->
  (m' = m /\ e' = e) \/ (exists k, m' = Pos.iter xO m k /\ e' = (e - Zpos k)%Z) ->
  binary_round prec emax s m' e' = S754_finite s m e.
Proof.
  intros Hb Hsh.
  pose proof Hb as Hb'. unfold bounded, canonical_mantissa in Hb'.
  apply andb_true_iff in Hb' as [Hc He]. apply Z.eqb_eq in Hc.
  assert (Hdig : (Zpos (digits2_pos m') + e' = Zpos (digits2_pos m) + e)%Z).
  { destruct Hsh as [[-> ->]|(k & -> & ->)]; [reflexivity|].
    rewrite digits2_pos_shift. lia. }
  unfold binary_round. rewrite Hdig, Hc.
  assert (Hal : shl_align m' e' e = (m', e')).
  { unfold shl_align. destruct Hsh as [[-> ->]|(k & -> & ->)].
    - rewrite Z.sub_diag. reflexivity.
    - replace (e - (e - Zpos k))%Z with (Zpos k) by lia. reflexivity. }
  rewrite Hal. unfold binary_round_aux.
  assert (Hshr : shr_fexp prec emax (Zpos m') e' loc_Exact
                 = (Build_shr_record (Zpos m) false false, e)).
  { unfold shr_fexp. cbn [Zdigits2 shr_record_of_loc]. rewrite Hdig, Hc.
    destruct Hsh as [[-> ->]|(k & -> & ->)].
    - rewrite Z.sub_diag. reflexivity.
    - replace (e - (e - Zpos k))%Z with (Zpos k) by lia.
      unfold shr. rewrite shr_shift. f_equal. lia. }
  rewrite Hshr. cbn [shr_m loc_of_shr_record round_nearest_even].
  assert (Hshr2 : shr_fexp prec emax (Zpos m) e loc_Exact
                  = (Build_shr_record (Zpos m) false false, e)).
  { unfold shr_fexp. cbn [Zdigits2 shr_record_of_loc]. rewrite Hc, Z.sub_diag.
    reflexivity. }
  rewrite Hshr2. cbn [shr_m]. rewrite He. reflexivity.
Qed.

Lemma shl_align_cases (m : positive) (e ex' : Z) (m' : positive) (e' : Z) :
  shl_align m e ex' = (m', e') ->
  (m' = m /\ e' = e) \/ (exists k, m' = Pos.iter xO m k /\ e' = (e - Zpos k)%Z).
Proof.
  unfold shl_align. destruct (ex' - e)%Z as [|d|d] eqn:Hd; intros H;
    injection H as <- <-; [left; auto | left; auto | right].
  exists d. split; [reflexivity | lia].
Qed.

(** Widening a value of a format to binary64 and rounding it back to the
    format is the identity. *)
Lemma narrow_widen (f : float_fmt) (h : spec_float) :
  valid_binary (fmt_prec f) (fmt_emax f) h = true ->
  narrow f (widen h) = h.
Proof.
  destruct h as [s|s| |s m e]; try reflexivity.
  cbn [valid_binary]. intros Hb. unfold widen.
  destruct (shl_align m e (fexp 53 1024 (Zpos (digits2_pos m) + e))) as [m' e'] eqn:Hal.
  unfold narrow, binary_normalize.
  apply shl_align_cases in Hal.
  destruct s; apply binary_round_shifted; assumption.
Qed.

(** Packing a value of the format and unpacking the bytes, whatever
    follows them, gives the value back. *)
Lemma struct_unpack_pack (f : float_fmt) (h : spec_float) (g : bytes) :
  valid_binary (fmt_prec f) (fmt_emax f) h = true ->
  exists bs, struct_pack f (widen h) = Ok bs /\
             List.length bs = fmt_size f /\
             struct_unpack f (slice_to (fmt_size f) (bs ++ g)) = Ok (widen h).
Proof.
  intros Hv. unfold struct_pack. rewrite (narrow_widen _ _ Hv).
  assert (Hov : is_finite (widen h) && is_inf h = false).
  { destruct h as [s|s| |s m e]; try reflexivity. apply andb_false_r. }
  rewrite Hov. eexists. split; [reflexivity|].
  split; [apply length_le_split|].
  unfold struct_unpack, slice_to.
  rewrite firstn_exact_app by apply length_le_split.
  rewrite length_le_split, Nat.eqb_refl.
  rewrite le_combine_split.
  rewrite Z.mod_small.
  - rewrite float_of_bits_bits by assumption. reflexivity.
  - replace (Z.of_nat (fmt_size f) * 8)%Z with (8 * Z.of_nat (fmt_size f))%Z by lia.
    apply float_bits_range. assumption.
Qed.

(** Unpacking a buffer that is too short fails. *)
Lemma struct_unpack_short (f : float_fmt) (data : bytes) :
  (List.length data < fmt_size f)%nat ->
  struct_unpack f (slice_to (fmt_size f) data) = Raise StructError.
Proof.
  intros H. unfold struct_unpack, slice_to.
  rewrite firstn_all2 by lia.
  destruct (Nat.eqb_spec (List.length data) (fmt_size f)); [lia | reflexivity].
Qed.

(* ================================================================== *)
(** * Basic facts: types, dictionaries and loops *)


(** Induction on types, through the field-maps. *)
Lemma prim_induction (P : prim -> Prop) :
  (forall T, scalar T -> P T) ->
  (forall type, P type -> P (Array type)) ->
  (forall qualname map,
      Forall_fields (fun _ primitive => P primitive) map ->
      P (ComplexData qualname map)) ->
  forall T, P T.
Proof.
  intros Hs Ha Hc. fix IH 1. intros T.
  destruct T as [ | | | | | | | | | | | | | |t|n m];
    try (apply Hs; exact I).
  - apply Ha, IH.
  - apply Hc. induction m as [|[k t] m IHm]; simpl.
    + exact I.
    + split; [apply IH | exact IHm].
Qed.

Lemma prim_eqb_refl (T : prim) : prim_eqb T T = true.
Proof.
  induction T as [T HT|t IH|n m IH] using prim_induction.
  - destruct T; try reflexivity; contradiction.
  - exact IH.
  - cbn [prim_eqb]. rewrite String.eqb_refl. cbn [andb].
    induction m as [|[k t] m IHm]; [reflexivity|].
    destruct IH as [Ht Hm]. rewrite String.eqb_refl, Ht. cbn [andb]. auto.
Qed.

Lemma issubclass_refl (T : prim) : issubclass T T = true.
Proof. unfold issubclass. rewrite prim_eqb_refl. reflexivity. Qed.

Lemma isinstance_type_of (v : value) (T : prim) :
  type_of v = Some T -> isinstance v T = true.
Proof. unfold isinstance. intros ->. apply issubclass_refl. Qed.


Lemma is_primitive_type_of (v : value) (T : prim) :
  type_of v = Some T -> is_primitive v = true.
Proof. unfold is_primitive. intros ->. reflexivity. Qed.

(* ------------------------------------------------------------------ *)
(** ** Dictionaries *)


Lemma has_key_In {V : Type} (d : list (string * V)) (k : string) :
  has_key d k = true <-> In k (List.map fst d).
Proof.
  unfold has_key, lookup_k.
  induction d as [|[k' v] d IH]; simpl.
  - split; [discriminate | tauto].
  - destruct (String.eqb_spec k k') as [->|Hne].
    + split; auto.
    + rewrite IH. split; [auto | intros [H|H]; [congruence | exact H]].
Qed.

Lemma has_key_false {V : Type} (d : list (string * V)) (k : string) :
  ~ In k (List.map fst d) -> has_key d k = false.
Proof.
  intros H. destruct (has_key d k) eqn:E; [|reflexivity].
  apply has_key_In in E. contradiction.
Qed.

Lemma dict_set_new {V : Type} (d : list (string * V)) (k : string) (v : V) :
  ~ In k (List.map fst d) -> dict_set d k v = d ++ [(k, v)].
Proof.
  induction d as [|[k' w] d IH]; simpl; intros H; [reflexivity|].
  destruct (String.eqb_spec k k') as [->|Hne]; [tauto|].
  rewrite IH by tauto. reflexivity.
Qed.

Lemma getattr_app_new {V : Type} (d : list (string * V)) (k : string) (v : V) :
  ~ In k (List.map fst d) -> getattr (d ++ [(k, v)]) k = Ok v.
Proof.
  unfold getattr, lookup_k.
  induction d as [|[k' w] d IH]; simpl; intros H.
  - rewrite String.eqb_refl. reflexivity.
  - destruct (String.eqb_spec k k') as [->|Hne]; [tauto|]. apply IH. tauto.
Qed.

Lemma getattr_app_old {V : Type} (d d' : list (string * V)) (k : string) (v : V) :
  getattr d k = Ok v -> getattr (d ++ d') k = Ok v.
Proof.
  unfold getattr, lookup_k.
  induction d as [|[k' w] d IH]; simpl; intros H; [discriminate|].
  destruct (String.eqb k k'); auto.
Qed.

(* ------------------------------------------------------------------ *)
(** ** Loops *)

Lemma foldM_cons {A S : Type} (body : S -> A -> result S) (x : A) (xs : list A) (st : S) :
  foldM body (x :: xs) st = (st' <- body st x ;; foldM body xs st').
Proof. reflexivity. Qed.

Lemma foldM_nil {A S : Type} (body : S -> A -> result S) (st : S) :
  foldM body [] st = Ok st.
Proof. reflexivity. Qed.




Lemma repeatM_S {S : Type} (n : nat) (body : S -> result S) (st : S) :
  repeatM (Datatypes.S n) body st = (st' <- body st ;; repeatM n body st').
Proof. reflexivity. Qed.

(* ================================================================== *)
(** * Array.pop *)

(** C10. [Array.pop] on a non-empty array and a valid index (negative
    indices count from the end) removes the element at that index and
    returns [None], not the removed element. *)
Theorem Array_pop_returns_None (type : prim) (items : list value) (index : Z) :
  (- Z.of_nat (List.length items) <= index < Z.of_nat (List.length items))%Z ->
  let i := Z.to_nat (if (index <? 0)%Z
                     then index + Z.of_nat (List.length items) else index) in
  exists removed,
    nth_error items i = Some removed /\
    Array_pop (VList (Some (Array type)) items) index
    = Ok (VNone, VList (Some (Array type)) (firstn i items ++ skipn (S i) items)).
Proof.
  intros Hidx i.
  set (n := Z.of_nat (List.length items)) in *.
  set (j := if (index <? 0)%Z then (index + n)%Z else index) in *.
  assert (Hj : (0 <= j < n)%Z).
  { unfold j. destruct (Z.ltb_spec index 0); lia. }
  assert (Hi : (i < List.length items)%nat) by (unfold i, n in *; lia).
  destruct (nth_error items i) as [x|] eqn:Hx.
  - exists x. split; [reflexivity|].
    unfold Array_pop, list_pop. fold n. fold j.
    destruct (Z.leb_spec 0 j); [|lia].
    destruct (Z.ltb_spec j n); [|lia].
    cbn [andb]. fold i. rewrite Hx. reflexivity.
  - apply nth_error_None in Hx. lia.
Qed.

Lemma Array_pop_returns_None_witness :
  exists removed,
    nth_error [VInt (Some UInt8) 1; VInt (Some UInt8) 2; VInt (Some UInt8) 3] 2
    = Some removed /\
    Array_pop (VList (Some (Array UInt8))
                 [VInt (Some UInt8) 1; VInt (Some UInt8) 2; VInt (Some UInt8) 3])
              (-1)
    = Ok (VNone, VList (Some (Array UInt8))
                   [VInt (Some UInt8) 1; VInt (Some UInt8) 2]).
Proof.
  apply (@Array_pop_returns_None UInt8
           [VInt (Some UInt8) 1; VInt (Some UInt8) 2; VInt (Some UInt8) 3] (-1)%Z).
  simpl. lia.
Defined.

(* ================================================================== *)
(** * Length headers *)

(** C8, as the claim states it, fails: a 256-element array and a
    65536-byte text are not serialized with a wrapped header, the call
    raises [OverflowError]. *)
Lemma oversize_header_raises :
  serialize host 2 (VList (Some (Array UInt8)) (repeat (VInt (Some UInt8) 0) 256))
  = Raise OverflowError /\
  serialize host 1 (VStr (Some String) (repeat 97%Z (Z.to_nat 65536))) = Raise OverflowError.
Proof. split; vm_compute; reflexivity. Qed.

(** C8 (amended). Serializing a [String] whose UTF-8 form exceeds 65535
    bytes raises [OverflowError], and so does serializing an array of
    more than 255 elements: the length does not fit the header and no
    wire value is produced. *)
Theorem oversize_header_overflow (B : builtins) (fuel : nat) :
  (forall c s encoded,
      utf8_encode s = Ok encoded ->
      (65535 < Z.of_nat (List.length encoded))%Z ->
      serialize_as B (S fuel) String (VStr c s) = Raise OverflowError) /\
  (forall type c items,
      (255 < Z.of_nat (List.length items))%Z ->
      serialize_as B (S fuel) (Array type) (VList c items) = Raise OverflowError).
Proof.
  split.
  - intros c s encoded He Hlen. cbn [serialize_as String_serialize].
    rewrite He. cbn [bind].
    rewrite int_to_bytes_unsigned_overflow; [reflexivity|].
    change (2 ^ (8 * Z.of_nat 2))%Z with 65536%Z. lia.
  - intros type c items Hlen. cbn [serialize_as Int_serialize].
    rewrite int_to_bytes_unsigned_overflow; [reflexivity|].
    change (2 ^ (8 * Z.of_nat 1))%Z with 256%Z. lia.
Qed.

Lemma utf8_encode_repeat_ascii (n : nat) :
  utf8_encode (repeat 97%Z n) = Ok (repeat (byte.of_Z 97%Z) n).
Proof.
  unfold utf8_encode.
  assert (H : mapM utf8_encode_cp (repeat 97%Z n) = Ok (repeat [byte.of_Z 97%Z] n)).
  { induction n as [|n IH]; [reflexivity|].
    cbn [repeat mapM]. rewrite IH. reflexivity. }
  rewrite H. unfold bind.
  assert (Hc : List.concat (repeat [byte.of_Z 97%Z] n) = repeat (byte.of_Z 97%Z) n).
  { clear H. induction n as [|n IH]; [reflexivity|].
    cbn [repeat List.concat]. rewrite IH. reflexivity. }
  rewrite Hc. reflexivity.
Defined.

Lemma oversize_header_overflow_witness :
  serialize_as host 1 String (VStr (Some String) (repeat 97%Z (Z.to_nat 65536)))
  = Raise OverflowError /\
  serialize_as host 1 (Array UInt8)
    (VList (Some (Array UInt8)) (repeat (VInt (Some UInt8) 0) 256))
  = Raise OverflowError.
Proof.
  destruct (oversize_header_overflow host 0) as [Hs Ha]. split.
  - apply (Hs (Some String) (repeat 97%Z (Z.to_nat 65536))
              (repeat (byte.of_Z 97%Z) (Z.to_nat 65536))).
    + apply utf8_encode_repeat_ascii.
    + rewrite repeat_length. lia.
  - apply Ha. rewrite repeat_length. lia.
Defined.

(* ================================================================== *)
(** * Array construction *)

(** The step of [Array.__init__] on one item. *)
Lemma coerce_items (B : builtins) (type : prim) (items : list value) :
  let step item :=
    if negb (isinstance item type) then
      match construct B type item with
      | Ok item' => Ok item'
      | Raise _ => Raise TypeError
      end
    else Ok item in
  (forall items',
      mapM step items = Ok items' <->
      Forall2 (fun item item' =>
                 if isinstance item type then item' = item
                 else construct B type item = Ok item') items items') /\
  (forall e,
      mapM step items = Raise e ->
      e = TypeError /\
      Exists (fun item => isinstance item type = false /\
                          raises (construct B type item)) items) /\
  (Exists (fun item => isinstance item type = false /\
                       raises (construct B type item)) items ->
   mapM step items = Raise TypeError).
Proof.
  intros step. induction items as [|item items (IH1 & IH2 & IH3)].
  - split; [|split].
    + intros items'. split.
      * intros H; injection H as <-; constructor.
      * intros H; inversion H; reflexivity.
    + intros e H. discriminate.
    + intros H; inversion H.
  - assert (Hstep : step item =
                    if isinstance item type then Ok item
                    else match construct B type item with
                         | Ok item' => Ok item'
                         | Raise _ => Raise TypeError
                         end).
    { unfold step. destruct (isinstance item type); reflexivity. }
    cbn [mapM]. rewrite Hstep. clear Hstep.
    destruct (isinstance item type) eqn:Hi.
    + cbn [bind]. split; [|split].
      * intros items'. split.
        -- intros H. destruct (mapM step items) as [ys|] eqn:Hm; [|discriminate].
           injection H as <-.
           constructor; [rewrite Hi; reflexivity | apply IH1; reflexivity].
        -- intros H. inversion H as [|? y ? ys Hy Hys]; subst.
           rewrite Hi in Hy; subst. apply IH1 in Hys. rewrite Hys. reflexivity.
      * intros e H.
        destruct (mapM step items) as [ys|e'] eqn:Hm; [discriminate|].
        injection H as <-. destruct (IH2 e' eq_refl) as [He Hex].
        split; [exact He | right; exact Hex].
      * intros H. inversion H as [? ? [Hc _]|? ? Hex]; subst; [congruence|].
        rewrite (IH3 Hex). reflexivity.
    + destruct (construct B type item) as [item'|e'] eqn:Hc; cbn [bind].
      * split; [|split].
        -- intros items'. split.
           ++ intros H. destruct (mapM step items) as [ys|] eqn:Hm; [|discriminate].
              injection H as <-.
              constructor; [rewrite Hi; assumption | apply IH1; reflexivity].
           ++ intros H. inversion H as [|? y ? ys Hy Hys]; subst.
              rewrite Hi, Hc in Hy. injection Hy as ->.
              apply IH1 in Hys. rewrite Hys. reflexivity.
        -- intros e H.
           destruct (mapM step items) as [ys|e''] eqn:Hm; [discriminate|].
           injection H as <-. destruct (IH2 e'' eq_refl) as [He Hex].
           split; [exact He | right; exact Hex].
        -- intros H. inversion H as [? ? [_ [e'' He]]|? ? Hex]; subst; [congruence|].
           rewrite (IH3 Hex). reflexivity.
      * split; [|split].
        -- intros items'. split; [discriminate|].
           intros H. inversion H as [|? y ? ys Hy Hys]; subst.
           rewrite Hi, Hc in Hy. discriminate.
        -- intros e H. injection H as <-.
           split; [reflexivity|]. left. split; [exact Hi | exists e'; exact Hc].
        -- reflexivity.
Qed.

(** C6. Constructing an [Array[type]]: every item of the input sequence
    that is not already an instance of [type] is replaced by [type(item)],
    instances are kept unchanged, and the construction fails, with
    [TypeError], exactly when [type(item)] fails for some item that is not
    an instance. The input sequence is the single iterable argument, or
    the arguments themselves. *)
Theorem Array_init_coerces (B : builtins) (type : prim) (args : list value) :
  let items := input_sequence args in
  let arr := Array_init B type args in
  let uncoercible item :=
    isinstance item type = false /\ raises (construct B type item) in
  (arr = Raise TypeError <-> Exists uncoercible items) /\
  (~ Exists uncoercible items ->
   exists items',
     arr = Ok (VList (Some (Array type)) items') /\
     Forall2 (fun item item' =>
                if isinstance item type then item' = item
                else construct B type item = Ok item') items items').
Proof.
  intros items arr uncoercible.
  destruct (coerce_items B type items) as (H1 & H2 & H3).
  unfold arr, Array_init, Array_init_with. fold items.
  match goal with |- context [mapM ?f items] => set (step := f) in * end.
  split; [split|].
  - destruct (mapM step items) as [ys|e] eqn:Hm; cbn [bind]; [discriminate|].
    intros _. apply (H2 e). reflexivity.
  - intros Hex. rewrite (H3 Hex). reflexivity.
  - intros Hno. destruct (mapM step items) as [ys|e] eqn:Hm; cbn [bind].
    + exists ys. split; [reflexivity | apply H1; reflexivity].
    + exfalso. apply Hno. apply (H2 e). reflexivity.
Qed.

(** [Array[Int32]([1, "2", 3.9])] is [[Int32(1), Int32(2), Int32(3)]]. *)
Example Array_Int32_mixed :
  Array_init host Int32
    [VList None [VInt None 1; VStr None [50%Z];
                 VFloat None (S754_finite false 8782006274373222 (-51))]]
  = Ok (VList (Some (Array Int32))
          [VInt (Some Int32) 1; VInt (Some Int32) 2; VInt (Some Int32) 3]).
Proof. reflexivity. Qed.

(** A single text argument is the input sequence, not an item:
    [Array[String]("ab")] is [["a", "b"]]. *)
Example Array_String_single_text :
  Array_init host String [VStr None [97; 98]%Z]
  = Ok (VList (Some (Array String))
          [VStr (Some String) [97%Z]; VStr (Some String) [98%Z]]).
Proof. reflexivity. Qed.

Lemma Array_init_coerces_witness :
  exists items',
    Array_init host Int32 [VList None [VInt None 1; VInt (Some Int32) 2; VNone]]
    = Raise TypeError /\
    Array_init host Int32 [VInt None 1; VInt (Some Int32) 2]
    = Ok (VList (Some (Array Int32)) items').
Proof.
  destruct (Array_init_coerces host Int32
              [VList None [VInt None 1; VInt (Some Int32) 2; VNone]])
    as [[_ Hfail] _].
  destruct (Array_init_coerces host Int32 [VInt None 1; VInt (Some Int32) 2])
    as [_ Hok].
  destruct Hok as (items' & Hitems & _).
  - intros H. inversion H as [? ? [Hi [e He]]|? ? H']; subst; [discriminate He|].
    inversion H' as [? ? [Hi _]|? ? H'']; subst; [discriminate Hi|].
    inversion H''.
  - exists items'. split; [|exact Hitems].
    apply Hfail. right. right. left.
    split; [reflexivity | exists TypeError; reflexivity].
Defined.

(* ================================================================== *)
(** * Structural equality of data types *)





(* ================================================================== *)
(** * Wire format of arrays and composites *)

Lemma skipn_add {A : Type} (m n : nat) (l : list A) :
  skipn m (skipn n l) = skipn (n + m) l.
Proof. rewrite skipn_skipn. f_equal. lia. Qed.

Lemma Array_measure_loop (type : prim) (data : bytes) (count : nat) (offset : nat) :
  repeatM count
    (fun length => m <- measure type (slice_from length data) ;; Ok (length + m))
    offset
  = (total <- measure_elements type count (slice_from offset data) ;;
     Ok (offset + total)).
Proof.
  revert offset. induction count as [|count IH]; intros offset.
  - cbn [repeatM measure_elements bind]. f_equal. lia.
  - cbn [repeatM measure_elements].
    destruct (measure type (slice_from offset data)) as [m|e]; cbn [bind]; [|reflexivity].
    rewrite IH. unfold slice_from. rewrite skipn_add.
    destruct (measure_elements type count (skipn (offset + m) data)) as [r|e];
      cbn [bind]; [|reflexivity].
    f_equal. lia.
Qed.

Lemma measure_Array (type : prim) (data : bytes) :
  measure (Array type) data
  = (total <- measure_elements type
                (Z.to_nat (int_from_bytes false (slice_to 1 data)))
                (slice_from 1 data) ;;
     Ok (1 + total)).
Proof. cbn [measure]. apply Array_measure_loop. Qed.

Lemma ComplexData_measure_loop (map : list (string * prim)) (data : bytes)
  (offset : nat) :
  foldM (fun length (field : string * prim) =>
           let '(_, primitive) := field in
           m <- measure primitive (slice_from length data) ;;
           Ok (length + m)) map offset
  = (total <- measure_fields (List.map snd map) (slice_from offset data) ;;
     Ok (offset + total)).
Proof.
  revert offset. induction map as [|[attr primitive] map IH]; intros offset.
  - cbn [foldM List.map measure_fields bind]. f_equal. lia.
  - rewrite foldM_cons. cbn [List.map snd measure_fields].
    destruct (measure primitive (slice_from offset data)) as [m|e]; cbn [bind]; [|reflexivity].
    rewrite IH. unfold slice_from. rewrite skipn_add.
    destruct (measure_fields (List.map snd map) (skipn (offset + m) data)) as [r|e];
      cbn [bind]; [|reflexivity].
    f_equal. lia.
Qed.

Lemma measure_ComplexData (qualname : string) (map : list (string * prim))
  (data : bytes) :
  measure (ComplexData qualname map) data = measure_fields (List.map snd map) data.
Proof.
  cbn [measure]. rewrite ComplexData_measure_loop.
  unfold slice_from. cbn [skipn].
  destruct (measure_fields (List.map snd map) data); reflexivity.
Qed.

Lemma UInt8_header (n : nat) :
  (Z.of_nat n <= 255)%Z ->
  int_to_bytes 1 false (Z.of_nat n) = Ok [byte.of_Z (Z.of_nat n)].
Proof.
  intros H. rewrite int_to_bytes_unsigned_Ok; [reflexivity|].
  change (2 ^ (8 * Z.of_nat 1))%Z with 256%Z. lia.
Qed.

(** C5. An array is serialized as a 1-byte unsigned element count followed
    by the encoding of each element by the element type, in order;
    [measure] reads the count and adds up the element type's measure of the
    remaining buffer, element after element, without decoding any
    element. *)
Theorem Array_wire_format (B : builtins) (fuel : nat) (type : prim) :
  (forall items,
      serialize_as B (S fuel) (Array type) (VList (Some (Array type)) items)
      = (header <- int_to_bytes 1 false (Z.of_nat (List.length items)) ;;
         chunks <- mapM (serialize_as B fuel type) items ;;
         Ok (header ++ List.concat chunks))) /\
  (forall items,
      (Z.of_nat (List.length items) <= 255)%Z ->
      serialize_as B (S fuel) (Array type) (VList (Some (Array type)) items)
      = (chunks <- mapM (serialize_as B fuel type) items ;;
         Ok (byte.of_Z (Z.of_nat (List.length items)) :: List.concat chunks))) /\
  (forall data,
      measure (Array type) data
      = (total <- measure_elements type
                    (Z.to_nat (int_from_bytes false (slice_to 1 data)))
                    (slice_from 1 data) ;;
         Ok (1 + total))) /\
  (arr <- Array_init B UInt8 [VList None [VInt None 1; VInt None 2; VInt None 3]] ;;
   serialize B 2 arr) = Ok [Byte.x03; Byte.x01; Byte.x02; Byte.x03] /\
  (measure (Array String) [Byte.x01; Byte.x01; Byte.x00; Byte.xff] = Ok 4 /\
   deserialize B (Array String) [Byte.x01; Byte.x01; Byte.x00; Byte.xff]
   = Raise UnicodeError).
Proof.
  split; [|split; [|split; [|split; [|split]]]].
  - intros items. reflexivity.
  - intros items Hlen. cbn [serialize_as Int_serialize].
    rewrite UInt8_header by assumption. reflexivity.
  - apply measure_Array.
  - reflexivity.
  - reflexivity.
  - reflexivity.
Qed.

Lemma Array_wire_format_witness :
  serialize_as host 2 (Array UInt16)
    (VList (Some (Array UInt16)) [VInt (Some UInt16) 300; VInt (Some UInt16) 1])
  = Ok [Byte.x02; Byte.x2c; Byte.x01; Byte.x01; Byte.x00].
Proof.
  destruct (Array_wire_format host 1 UInt16) as (_ & H & _).
  rewrite H; [reflexivity | simpl; lia].
Defined.





(* ================================================================== *)
(** * Buffers shorter or longer than the value *)

Lemma repeatM_returns {S : Type} (n : nat) (body : S -> result S) (st : S) :
  (forall st, returns (body st)) -> returns (repeatM n body st).
Proof.
  intros H. revert st. induction n as [|n IH]; intros st.
  - apply returns_Ok.
  - cbn [repeatM]. destruct (H st) as [st' ->]. cbn [bind]. apply IH.
Qed.

(** [measure] never fails, whatever the buffer. *)
Lemma measure_total (T : prim) : forall data, returns (measure T data).
Proof.
  induction T as [T HT|t IH|n m IH] using prim_induction; intros data.
  - destruct T; try contradiction; apply returns_Ok.
  - cbn [measure]. apply repeatM_returns. intros length.
    destruct (IH (slice_from length data)) as [k ->]. apply returns_Ok.
  - cbn [measure]. generalize 0%nat.
    induction m as [|[attr primitive] m IHm]; intros offset.
    + apply returns_Ok.
    + rewrite foldM_cons. destruct IH as [Hp Hm].
      destruct (Hp (slice_from offset data)) as [k ->]. cbn [bind].
      apply IHm. exact Hm.
Qed.

(** C7, as the claim states it, fails: on an empty buffer [Int8.measure]
    and [Int8.deserialize] return 1 and 0, and on a buffer that announces
    five bytes of text and holds two, [String.measure] and
    [String.deserialize] return 7 and the two characters. *)
Lemma short_buffer_no_error :
  measure Int8 [] = Ok 1 /\
  deserialize host Int8 [] = Ok (VInt (Some Int8) 0) /\
  measure String [Byte.x05; Byte.x00; Byte.x61; Byte.x62] = Ok 7 /\
  deserialize host String [Byte.x05; Byte.x00; Byte.x61; Byte.x62]
  = Ok (VStr (Some String) [97; 98]%Z).
Proof. repeat split. Qed.

(** C7 (amended). On a buffer shorter than the type requires, [measure]
    does not fail for any type; [deserialize] fails for the float classes
    (fewer than [size] bytes) and for [Char] on the empty buffer; the
    integer classes and [Boolean] return the integer decoded from the
    bytes available, and [String] returns the text decoded from the bytes
    available after the header, when they are valid UTF-8. *)
Theorem short_buffer_behaviour (B : builtins) :
  (forall T data, returns (measure T data)) /\
  (forall T data, int_bounds T <> None -> returns (deserialize B T data)) /\
  (forall T f data,
      fmt T = Some f -> (List.length data < size T)%nat ->
      raises (deserialize B T data)) /\
  raises (deserialize B Char []) /\
  (forall data s,
      (List.length data
       < Z.to_nat (int_from_bytes false (slice_to 2 data)) + 2)%nat ->
      utf8_decode (slice_from 2 data) = Ok s ->
      deserialize B String data = Ok (VStr (Some String) s)).
Proof.
  split; [|split; [|split; [|split]]].
  - intros T data. apply measure_total.
  - intros T data HT. destruct T; try (exfalso; apply HT; reflexivity);
      apply returns_Ok.
  - intros T f data Hf Hlen.
    destruct T; try discriminate; injection Hf as <-; cbn [deserialize fmt];
      change (size E) with (fmt_size fmt_e) in *;
      change (size Float) with (fmt_size fmt_f) in *;
      change (size Double) with (fmt_size fmt_d) in *;
      rewrite struct_unpack_short by assumption; apply raises_Raise.
  - apply raises_Raise.
  - intros data s Hlen Hs. cbn [deserialize measure bind].
    set (m := (Z.to_nat (int_from_bytes false (slice_to 2 data)) + 2)%nat) in *.
    assert (Hsl : slice 2 m data = slice_from 2 data).
    { unfold slice, slice_from. apply firstn_all2. rewrite length_skipn. lia. }
    rewrite Hsl, Hs. reflexivity.
Qed.

Lemma short_buffer_behaviour_witness :
  raises (deserialize host E [Byte.x00]) /\
  deserialize host String [Byte.x05; Byte.x00; Byte.x61; Byte.x62]
  = Ok (VStr (Some String) [97; 98]%Z) /\
  returns (deserialize host UInt32 [Byte.x01]).
Proof.
  destruct (short_buffer_behaviour host) as (_ & Hint & Hfloat & _ & Hstr).
  split; [|split].
  - apply (Hfloat E fmt_e); [reflexivity | simpl; lia].
  - apply Hstr; [vm_compute; lia | reflexivity].
  - apply Hint. discriminate.
Defined.

Lemma slice_from_slice_to (m n : nat) (data : bytes) :
  slice_from m (slice_to n data) = slice_to (n - m) (slice_from m data).
Proof. unfold slice_from, slice_to. apply skipn_firstn_comm. Qed.

Lemma measure_elements_local (type : prim) :
  measure_local type ->
  forall count data total n,
    measure_elements type count data = Ok total ->
    (total <= List.length data)%nat -> (total <= n)%nat ->
    measure_elements type count (slice_to n data) = Ok total.
Proof.
  intros Hloc. induction count as [|count IH]; intros data total n Hm Hlen Hn.
  - exact Hm.
  - cbn [measure_elements] in Hm |- *.
    destruct (measure type data) as [m|] eqn:Hhead; [|discriminate].
    cbn [bind] in Hm.
    destruct (measure_elements type count (slice_from m data)) as [rest|] eqn:Hrest;
      [|discriminate].
    injection Hm as <-.
    rewrite (Hloc data m n Hhead) by lia. cbn [bind].
    rewrite slice_from_slice_to.
    rewrite (IH (slice_from m data) rest (n - m)%nat Hrest); [reflexivity| |lia].
    unfold slice_from. rewrite length_skipn. lia.
Qed.

Lemma measure_fields_local (types : list prim) :
  Forall measure_local types ->
  forall data total n,
    measure_fields types data = Ok total ->
    (total <= List.length data)%nat -> (total <= n)%nat ->
    measure_fields types (slice_to n data) = Ok total.
Proof.
  induction 1 as [|primitive types Hloc _ IH]; intros data total n Hm Hlen Hn.
  - exact Hm.
  - cbn [measure_fields] in Hm |- *.
    destruct (measure primitive data) as [m|] eqn:Hhead; [|discriminate].
    cbn [bind] in Hm.
    destruct (measure_fields types (slice_from m data)) as [rest|] eqn:Hrest;
      [|discriminate].
    injection Hm as <-.
    rewrite (Hloc data m n Hhead) by lia. cbn [bind].
    rewrite slice_from_slice_to.
    rewrite (IH (slice_from m data) rest (n - m)%nat Hrest); [reflexivity| |lia].
    unfold slice_from. rewrite length_skipn. lia.
Qed.

Lemma slice_to_slice_to (k n : nat) (data : bytes) :
  (k <= n)%nat -> slice_to k (slice_to n data) = slice_to k data.
Proof.
  intros H. unfold slice_to. rewrite firstn_firstn. f_equal. lia.
Qed.

Lemma measure_prefix (T : prim) : measure_local T.
Proof.
  induction T as [T HT|type IH|qualname map IH] using prim_induction;
    intros data m n Hm Hlen Hn.
  - destruct T; try contradiction; try exact Hm.
    cbn [measure] in Hm |- *. injection Hm as <-.
    rewrite slice_to_slice_to by lia. reflexivity.
  - rewrite measure_Array in Hm |- *.
    destruct (measure_elements type
                (Z.to_nat (int_from_bytes false (slice_to 1 data)))
                (slice_from 1 data)) as [total|] eqn:Helems; [|discriminate].
    injection Hm as <-.
    rewrite slice_to_slice_to by lia. rewrite slice_from_slice_to.
    rewrite (@measure_elements_local type IH _ (slice_from 1 data) total
               (n - 1)%nat Helems); [reflexivity| |lia].
    unfold slice_from. rewrite length_skipn. lia.
  - rewrite measure_ComplexData in Hm |- *.
    apply measure_fields_local; try assumption.
    clear -IH. induction map as [|[attr primitive] map IHm]; [constructor|].
    destruct IH as [Hp Hmap]. constructor; [exact Hp | exact (IHm Hmap)].
Qed.

(** X26. Every class but [Boolean] decodes the bytes that its [measure]
    counts and nothing after them: on a buffer that holds them, [deserialize]
    returns what it returns on the first [measure] bytes. A [Boolean]
    inside an array or a composite is covered: the container cuts the
    buffer before it decodes its parts. *)
Lemma deserialize_ignores_trailing_bytes (B : builtins) (T : prim)
  (data : bytes) (m : nat) :
  T <> Boolean ->
  measure T data = Ok m -> (m <= List.length data)%nat ->
  deserialize B T (slice_to m data) = deserialize B T data.
Proof.
  intros HT Hm Hlen.
  pose proof (@measure_prefix T data m m Hm Hlen (le_n m)) as Hcut.
  destruct T; try (exfalso; apply HT; reflexivity);
    try (cbn [deserialize measure size fmt] in *; unfold Int_deserialize;
         injection Hm as <-; cbn [size];
         rewrite slice_to_slice_to by lia; reflexivity).
  - cbn [measure] in Hm. injection Hm as <-.
    destruct data as [|b data]; [cbn [List.length] in Hlen; lia|]. reflexivity.
  - change (deserialize B String (slice_to m data))
      with (m' <- measure String (slice_to m data) ;;
            s <- utf8_decode (slice 2 m' (slice_to m data)) ;;
            construct B String (VStr None s)).
    change (deserialize B String data)
      with (m' <- measure String data ;;
            s <- utf8_decode (slice 2 m' data) ;;
            construct B String (VStr None s)).
    rewrite Hcut, Hm. cbn [bind].
    replace (slice 2 m (slice_to m data)) with (slice 2 m data); [reflexivity|].
    unfold slice. fold (slice_from 2 (slice_to m data)).
    rewrite slice_from_slice_to. unfold slice_to, slice_from.
    rewrite firstn_firstn. f_equal. lia.
  - cbn [deserialize]. rewrite Hcut, Hm. cbn [bind].
    rewrite slice_to_slice_to by lia. reflexivity.
  - cbn [deserialize]. rewrite Hcut, Hm. cbn [bind].
    rewrite slice_to_slice_to by lia. reflexivity.
Qed.

Lemma deserialize_ignores_trailing_bytes_witness :
  deserialize host (Array Boolean)
    (slice_to 3 [Byte.x02; Byte.x01; Byte.x00; Byte.xff])
  = deserialize host (Array Boolean) [Byte.x02; Byte.x01; Byte.x00; Byte.xff].
Proof.
  apply (@deserialize_ignores_trailing_bytes host (Array Boolean)
           [Byte.x02; Byte.x01; Byte.x00; Byte.xff] 3).
  - discriminate.
  - reflexivity.
  - simpl. lia.
Defined.

(** C3. [Boolean.deserialize] decodes the whole buffer, not the one byte
    that [Boolean.measure] reports: on [01 02] it returns 513, while on
    the first [measure] bytes it returns 1. The integer classes slice the
    buffer first: [UInt16.deserialize] of [2c 01 ff] is 300. *)
Theorem Boolean_deserialize_reads_whole_buffer (B : builtins) :
  measure Boolean [Byte.x01; Byte.x02] = Ok 1 /\
  deserialize B Boolean [Byte.x01; Byte.x02] = Ok (VInt (Some Boolean) 513) /\
  deserialize B Boolean (slice_to 1 [Byte.x01; Byte.x02])
  = Ok (VInt (Some Boolean) 1) /\
  py_eq (VInt (Some Boolean) 513) (VInt (Some Boolean) 1) = Ok false /\
  deserialize B UInt16 [Byte.x2c; Byte.x01; Byte.xff] = Ok (VInt (Some UInt16) 300) /\
  measure UInt16 [Byte.x2c; Byte.x01; Byte.xff] = Ok 2.
Proof. repeat split. Qed.

(* ================================================================== *)
(** * Round trip and measure consistency: scalars *)


(** The width and signedness behind the bounds of an integer class. *)
Lemma int_class_spec (T : prim) (lo hi : Z) :
  int_bounds T = Some (lo, hi) ->
  (forall B fuel c n,
      serialize_as B (S fuel) T (VInt c n) = int_to_bytes (size T) (lo <? 0)%Z n) /\
  (forall n, (lo <= n < hi)%Z ->
             exists bs, int_to_bytes (size T) (lo <? 0)%Z n = Ok bs) /\
  (0 < size T)%nat /\
  (forall data, measure T data = Ok (size T)) /\
  (forall B data,
      deserialize B T data
      = Ok (VInt (Some T)
              (int_from_bytes (lo <? 0)%Z
                 (if is_Boolean T then data else slice_to (size T) data)))).
Proof.
  intros HT.
  split; [|split; [|split; [|split]]].
  - intros B fuel c n. destruct T; try discriminate; injection HT as <- <-; reflexivity.
  - intros n Hn. unfold int_to_bytes.
    destruct T; try discriminate; injection HT as <- <-;
      cbn [size Z.ltb Z.compare]; repeat eval_closed_step;
      match goal with
      | |- context [if ?c then _ else _] =>
        assert (Hc : c = true)
          by (apply andb_true_iff; split; [apply Z.leb_le | apply Z.ltb_lt]; lia);
        rewrite Hc
      end; eexists; reflexivity.
  - destruct T; try discriminate; cbn; lia.
  - intros data. destruct T; try discriminate; reflexivity.
  - intros B data. destruct T; try discriminate; injection HT as <- <-; reflexivity.
Qed.

Lemma construct_int (B : builtins) (T : prim) (lo hi : Z) (x : value) :
  int_bounds T = Some (lo, hi) ->
  construct B T x = (n <- py_int B x ;; Ok (VInt (Some T) n)).
Proof. intros HT. destruct T; try discriminate; reflexivity. Qed.








(* ================================================================== *)
(** * Round trip and measure consistency: arrays and composites *)







Lemma Array_init_type (ctor : value -> result value) (t : prim)
  (args : list value) (d : value) :
  Array_init_with ctor t args = Ok d -> type_of d = Some (Array t).
Proof.
  unfold Array_init_with. intros H.
  apply bind_Ok in H as (items & _ & H). injection H as <-. reflexivity.
Qed.

















Lemma ComplexData_init_fields (qualname : string) (map : list (string * prim))
  (kd : list (string * value)) :
  List.map fst kd = List.map fst map ->
  NoDup (List.map fst map) ->
  ComplexData_init (ComplexData qualname map) kd
  = Ok (VObj (ComplexData qualname map) kd).
Proof.
  intros Hkeys Hnd. unfold ComplexData_init.
  assert (Hin : forall kv, In kv kd -> has_key map (fst kv) = true).
  { intros kv Hkv. apply has_key_In. rewrite <- Hkeys. apply in_map. exact Hkv. }
  assert (Hfilter : filter (fun kv : string * value => negb (has_key map (fst kv))) kd = []).
  { clear Hkeys Hnd. induction kd as [|kv kd IH]; [reflexivity|].
    cbn [filter]. rewrite (Hin kv) by (left; reflexivity). cbn [negb].
    apply IH. intros kv' Hkv'. apply Hin. right. exact Hkv'. }
  rewrite Hfilter.
  assert (Hfold : forall acc,
             NoDup (List.map fst acc ++ List.map fst kd) ->
             fold_left (fun d (kv : string * value) =>
                          if has_key map (fst kv)
                          then dict_set d (fst kv) (snd kv) else d) kd acc
             = acc ++ kd).
  { clear Hkeys Hnd Hfilter. induction kd as [|[k v] kd IH]; intros acc Hacc.
    - cbn [fold_left]. rewrite app_nil_r. reflexivity.
    - cbn [fold_left fst snd].
      pose proof (Hin (k, v) (or_introl eq_refl)) as Hmem. cbn [fst] in Hmem.
      rewrite Hmem.
      assert (Hnew : ~ In k (List.map fst acc)).
      { cbn [List.map fst] in Hacc. apply NoDup_remove_2 in Hacc.
        intros Hk. apply Hacc. apply in_or_app. left. exact Hk. }
      rewrite (@dict_set_new _ acc k v Hnew).
      rewrite IH.
      + rewrite <- app_assoc. reflexivity.
      + intros kv' Hkv'. apply Hin. right. exact Hkv'.
      + rewrite map_app. cbn [List.map fst]. rewrite <- app_assoc. exact Hacc. }
  rewrite (Hfold []); [reflexivity|]. cbn [List.map app]. rewrite Hkeys. exact Hnd.
Qed.







(* ================================================================== *)
(** * Measure consistency *)




(* ================================================================== *)
(** * Round trip *)


(** A float that the format does not hold exactly comes back rounded:
    [E(0.1)] comes back as 0.0999755859375. *)
Example E_round_trip_rounds :
  let tenth := S754_finite false 7205759403792794 (-56) in
  serialize host 1 (VFloat (Some E) tenth) = Ok [Byte.x66; Byte.x2e] /\
  deserialize host E [Byte.x66; Byte.x2e]
  = Ok (VFloat None (S754_finite false 7204000185188352 (-56))) /\
  py_eq (VFloat None (S754_finite false 7204000185188352 (-56)))
        (VFloat (Some E) tenth) = Ok false.
Proof. repeat split. Qed.

(** A [Boolean] that is followed by other data is decoded together with
    it: [Array[Boolean]([1, 1])] comes back as [[257, 1]]. *)
Example Array_Boolean_round_trip :
  serialize host 2
    (VList (Some (Array Boolean)) [VInt (Some Boolean) 1; VInt (Some Boolean) 1])
  = Ok [Byte.x02; Byte.x01; Byte.x01] /\
  deserialize host (Array Boolean) [Byte.x02; Byte.x01; Byte.x01]
  = Ok (VList (Some (Array Boolean))
          [VInt (Some Boolean) 257; VInt (Some Boolean) 1]).
Proof. repeat split. Qed.



(* ================================================================== *)
(** * The integer classes, byte for byte *)

Ltac eval_pow :=
  repeat match goal with
         | |- context [Z.pow ?a ?b] =>
           let v := eval vm_compute in (Z.pow a b) in
           change (Z.pow a b) with v
         end.

Lemma int_to_bytes_spec (l : nat) (signed : bool) (n : Z) :
  let bits := (8 * Z.of_nat l)%Z in
  let lo := if signed then (- 2 ^ (bits - 1))%Z else 0%Z in
  let hi := if signed then (2 ^ (bits - 1))%Z else (2 ^ bits)%Z in
  int_to_bytes l signed n
  = if ((lo <=? n) && (n <? hi))%Z then Ok (le_split l n) else Raise OverflowError.
Proof. destruct signed; reflexivity. Qed.

Lemma int_bounds_bits (T : prim) (lo hi : Z) :
  int_bounds T = Some (lo, hi) ->
  let bits := (8 * Z.of_nat (size T))%Z in
  lo = (if (lo <? 0)%Z then - 2 ^ (bits - 1) else 0)%Z /\
  hi = (if (lo <? 0)%Z then 2 ^ (bits - 1) else 2 ^ bits)%Z.
Proof.
  intros H. destruct T; try discriminate; injection H as <- <-;
    split; reflexivity.
Qed.

Lemma int_to_bytes_class (T : prim) (lo hi n : Z) :
  int_bounds T = Some (lo, hi) ->
  int_to_bytes (size T) (lo <? 0)%Z n
  = if ((lo <=? n) && (n <? hi))%Z
    then Ok (le_split (size T) n) else Raise OverflowError.
Proof.
  intros H. destruct (@int_bounds_bits T lo hi H) as [Hlo Hhi].
  rewrite int_to_bytes_spec. cbv zeta.
  rewrite <- Hlo, <- Hhi. reflexivity.
Qed.

(** X1. An integer class takes any integer at construction; [serialize]
    returns [size] bytes when the integer is in the range of the class
    (one unsigned byte for [Boolean]) and raises [OverflowError] when it
    is not. *)
Theorem Int_serialize_range (B : builtins) (T : prim) (lo hi n : Z) (fuel : nat) :
  int_bounds T = Some (lo, hi) ->
  construct B T (VInt None n) = Ok (VInt (Some T) n) /\
  ((lo <= n < hi)%Z ->
   exists bs, serialize B (S fuel) (VInt (Some T) n) = Ok bs /\
              List.length bs = size T) /\
  (~ (lo <= n < hi)%Z ->
   serialize B (S fuel) (VInt (Some T) n) = Raise OverflowError).
Proof.
  intros HT. destruct (@int_class_spec T lo hi HT) as (Hser & _).
  split; [rewrite (@construct_int B T lo hi (VInt None n) HT); reflexivity|].
  unfold serialize. cbn [type_of]. rewrite Hser, (@int_to_bytes_class T lo hi n HT).
  split; intros Hn.
  - destruct (Z.leb_spec lo n); [|lia]. destruct (Z.ltb_spec n hi); [|lia].
    cbn [andb]. eexists. split; [reflexivity | apply length_le_split].
  - destruct (Z.leb_spec lo n); [|reflexivity].
    destruct (Z.ltb_spec n hi); [lia | reflexivity].
Qed.

Lemma Int_serialize_range_witness :
  (exists bs, serialize host 1 (VInt (Some Int16) (-2)) = Ok bs /\
              List.length bs = 2%nat) /\
  serialize host 1 (VInt (Some Boolean) 256) = Raise OverflowError.
Proof.
  destruct (@Int_serialize_range host Int16 (-32768) 32768 (-2) 0 eq_refl)
    as (_ & Hin & _).
  destruct (@Int_serialize_range host Boolean 0 256 256 0 eq_refl)
    as (_ & _ & Hout).
  split; [apply Hin; lia | apply Hout; lia].
Defined.

(** The value of at most [l] bytes is in the range of an [l]-byte
    integer of the same signedness. *)
Lemma int_from_bytes_range (signed : bool) (l : nat) (data : bytes) :
  (List.length data <= l)%nat -> (0 < l)%nat ->
  let bits := (8 * Z.of_nat l)%Z in
  let n := int_from_bytes signed data in
  if signed then (- 2 ^ (bits - 1) <= n < 2 ^ (bits - 1))%Z
  else (0 <= n < 2 ^ bits)%Z.
Proof.
  intros Hlen Hl bits n.
  pose proof (le_combine_bound data) as Hu.
  assert (Hmono : (2 ^ (8 * Z.of_nat (List.length data)) <= 2 ^ bits)%Z).
  { apply Z.pow_le_mono_r; unfold bits; lia. }
  unfold n, int_from_bytes. destruct data as [|b data].
  - destruct signed; [|split; [lia | apply Z.pow_pos_nonneg; unfold bits; lia]].
    assert (0 < 2 ^ (bits - 1))%Z by (apply Z.pow_pos_nonneg; unfold bits; lia).
    lia.
  - set (u := le_combine (b :: data)) in *.
    set (k := (8 * Z.of_nat (List.length (b :: data)))%Z) in *.
    assert (Hk : (0 < k)%Z) by (unfold k; cbn [List.length]; lia).
    assert (Hhalf : (2 ^ k = 2 * 2 ^ (k - 1))%Z).
    { rewrite <- Z.pow_succ_r by lia. f_equal. lia. }
    assert (Hhalf' : (2 ^ bits = 2 * 2 ^ (bits - 1))%Z).
    { rewrite <- Z.pow_succ_r by (unfold bits; lia). f_equal. lia. }
    assert (Hm : (2 ^ (k - 1) <= 2 ^ (bits - 1))%Z).
    { apply Z.pow_le_mono_r; unfold k, bits in *; lia. }
    destruct signed; cbn [andb]; [|lia].
    destruct (Z.leb_spec (2 ^ (k - 1)) u); lia.
Qed.

(** Writing the integer read from exactly [l] bytes gives the bytes
    back. *)
Lemma int_to_from_bytes (signed : bool) (data : bytes) :
  (0 < List.length data)%nat ->
  int_to_bytes (List.length data) signed (int_from_bytes signed data) = Ok data.
Proof.
  intros Hl.
  pose proof (@int_from_bytes_range signed (List.length data) data (le_n _) Hl)
    as Hr. cbv zeta in Hr.
  rewrite int_to_bytes_spec. cbv zeta.
  assert (Hsplit : le_split (List.length data) (int_from_bytes signed data) = data).
  { unfold int_from_bytes. destruct data as [|b data]; [cbn in Hl; lia|].
    set (bs := b :: data) in *.
    destruct (signed && (2 ^ (8 * Z.of_nat (List.length bs) - 1) <=? le_combine bs)%Z).
    - rewrite le_split_mod.
      replace (8 * Z.of_nat (List.length bs))%Z
        with (Z.of_nat (List.length bs) * 8)%Z by lia.
      rewrite <- (Z.mul_1_l (2 ^ (Z.of_nat (List.length bs) * 8))) at 1.
      rewrite <- Z.add_opp_r, <- Z.mul_opp_l, Z.mod_add
        by (apply Z.pow_nonzero; lia).
      rewrite <- le_split_mod. apply split_le_combine.
    - apply split_le_combine. }
  rewrite Hsplit.
  destruct signed.
  - destruct Hr as [H1 H2]. apply Z.leb_le in H1. apply Z.ltb_lt in H2.
    rewrite H1, H2. reflexivity.
  - destruct Hr as [H1 H2]. apply Z.leb_le in H1. apply Z.ltb_lt in H2.
    rewrite H1, H2. reflexivity.
Qed.

(** X2. The integer that a fixed-width integer class decodes is always in
    the range of the class, whatever the buffer, and when the buffer holds
    [size] bytes, serializing the decoded integer gives those bytes
    back. *)
Theorem Int_deserialize_serialize (B : builtins) (T : prim) (lo hi : Z)
  (data : bytes) (fuel : nat) :
  int_bounds T = Some (lo, hi) -> T <> Boolean ->
  exists n,
    deserialize B T data = Ok (VInt (Some T) n) /\
    (lo <= n < hi)%Z /\
    ((size T <= List.length data)%nat ->
     serialize B (S fuel) (VInt (Some T) n) = Ok (slice_to (size T) data)).
Proof.
  intros HT Hnb.
  destruct (@int_class_spec T lo hi HT) as (Hser & _ & Hsize & _ & Hde).
  destruct (@int_bounds_bits T lo hi HT) as [Hlo Hhi]. cbv zeta in Hlo, Hhi.
  assert (Hb : is_Boolean T = false)
    by (destruct T; try reflexivity; exfalso; apply Hnb; reflexivity).
  eexists. split; [rewrite Hde, Hb; reflexivity|].
  set (bs := slice_to (size T) data).
  assert (Hlen : (List.length bs <= size T)%nat).
  { unfold bs, slice_to. rewrite length_firstn. lia. }
  pose proof (@int_from_bytes_range (lo <? 0)%Z (size T) bs Hlen Hsize) as Hr.
  cbv zeta in Hr.
  split.
  - destruct (lo <? 0)%Z; lia.
  - intros Hdata. unfold serialize. cbn [type_of]. rewrite Hser.
    assert (Hexact : List.length bs = size T).
    { unfold bs, slice_to. rewrite length_firstn. lia. }
    rewrite <- Hexact at 1. apply int_to_from_bytes. lia.
Qed.

Lemma Int_deserialize_serialize_witness :
  exists n,
    deserialize host Int16 [Byte.xfe; Byte.xff; Byte.x07]
    = Ok (VInt (Some Int16) n) /\
    (-32768 <= n < 32768)%Z /\
    ((size Int16 <= 3)%nat ->
     serialize host 1 (VInt (Some Int16) n) = Ok [Byte.xfe; Byte.xff]).
Proof.
  apply (@Int_deserialize_serialize host Int16 (-32768) 32768
           [Byte.xfe; Byte.xff; Byte.x07] 0 eq_refl).
  discriminate.
Defined.

(* ================================================================== *)
(** * The float classes, byte for byte *)

(** Every word of the width of the format splits into the three fields. *)
Lemma word_fields (f : float_fmt) (w : Z) :
  (0 <= w < 2 ^ (8 * Z.of_nat (fmt_size f)))%Z ->
  exists s ex mant,
    w = (sign_bit f s + ex * 2 ^ fmt_mw f + mant)%Z /\
    (0 <= ex < 2 ^ fmt_ew f)%Z /\ (0 <= mant < 2 ^ fmt_mw f)%Z.
Proof.
  intros Hw. destruct (fmt_widths f) as [Hmw Hew].
  assert (HP : (0 < 2 ^ fmt_mw f)%Z) by (apply Z.pow_pos_nonneg; lia).
  assert (HQ : (0 < 2 ^ fmt_ew f)%Z) by (apply Z.pow_pos_nonneg; lia).
  assert (Hsz : (2 ^ (8 * Z.of_nat (fmt_size f))
                 = 2 * (2 ^ fmt_ew f * 2 ^ fmt_mw f))%Z).
  { rewrite <- Z.pow_add_r by lia.
    rewrite <- Z.pow_succ_r by lia. f_equal. unfold fmt_ew, fmt_mw. lia. }
  rewrite Hsz in Hw.
  set (q := (w / 2 ^ fmt_mw f)%Z).
  pose proof (Z.div_mod w (2 ^ fmt_mw f) ltac:(lia)) as Hdm. fold q in Hdm.
  pose proof (Z.mod_pos_bound w (2 ^ fmt_mw f) HP) as Hmant.
  pose proof (Z.div_mod q (2 ^ fmt_ew f) ltac:(lia)) as Hdq.
  pose proof (Z.mod_pos_bound q (2 ^ fmt_ew f) HQ) as Hex.
  set (mant := (w mod 2 ^ fmt_mw f)%Z) in *.
  set (ex := (q mod 2 ^ fmt_ew f)%Z) in *.
  set (sg := (q / 2 ^ fmt_ew f)%Z) in *.
  assert (Hq : (0 <= q < 2 * 2 ^ fmt_ew f)%Z) by nia.
  assert (Hsg : (sg = 0 \/ sg = 1)%Z) by nia.
  exists (sg =? 1)%Z, ex, mant. split; [|split; assumption].
  unfold sign_bit. rewrite Z.pow_add_r by lia.
  destruct Hsg as [Hs|Hs]; rewrite Hs in *; cbn [Z.eqb Pos.eqb]; nia.
Qed.

Lemma digits2_pos_below (m : positive) (k : Z) :
  (0 <= k)%Z -> (Zpos m < 2 ^ k)%Z -> (Zpos (digits2_pos m) <= k)%Z.
Proof.
  intros Hk Hm. pose proof (digits2_pos_bounds m) as [Hlo _].
  assert (H : (2 ^ (Zpos (digits2_pos m) - 1) < 2 ^ k)%Z) by lia.
  apply Z.pow_lt_mono_r_iff in H; lia.
Qed.

Lemma digits2_pos_above (m : positive) (k : Z) :
  (0 <= k)%Z -> (2 ^ k <= Zpos m)%Z -> (k < Zpos (digits2_pos m))%Z.
Proof.
  intros Hk Hm. pose proof (digits2_pos_bounds m) as [_ Hhi].
  assert (H : (2 ^ k < 2 ^ Zpos (digits2_pos m))%Z) by lia.
  apply Z.pow_lt_mono_r_iff in H; lia.
Qed.

Lemma fmt_emax_ew (f : float_fmt) : (2 ^ fmt_ew f = 2 * fmt_emax f)%Z.
Proof. destruct f; reflexivity. Qed.

(** A word that is not a NaN pattern decodes to a value of the format,
    whose encoding is the word. *)
Lemma float_bits_of_bits (f : float_fmt) (w : Z) :
  (0 <= w < 2 ^ (8 * Z.of_nat (fmt_size f)))%Z ->
  is_nan (float_of_bits f w) = false ->
  valid_binary (fmt_prec f) (fmt_emax f) (float_of_bits f w) = true /\
  float_bits f (float_of_bits f w) = w.
Proof.
  intros Hw. destruct (word_fields f Hw) as (s & ex & mant & -> & Hex & Hmant).
  clear Hw. rewrite float_of_bits_fields by assumption.
  destruct (fmt_widths f) as [Hmw Hew].
  pose proof (fmt_emax_ew f) as Hemax.
  assert (Hprec : fmt_prec f = (fmt_mw f + 1)%Z) by (unfold fmt_mw; lia).
  destruct (Z.eqb_spec ex 0) as [Hz|Hz].
  - subst ex. destruct mant as [|m|m]; intros _; [| |lia].
    + split; [reflexivity|]. unfold float_bits. lia.
    + split.
      * cbn [valid_binary]. unfold bounded, canonical_mantissa, fexp.
        pose proof (@digits2_pos_below m (fmt_mw f) ltac:(lia) ltac:(lia)) as Hd.
        apply andb_true_iff. split; [apply Z.eqb_eq | apply Z.leb_le].
        -- rewrite Z.max_r; [reflexivity | lia].
        -- unfold emin. destruct f; vm_compute; discriminate.
      * unfold float_bits. cbv zeta.
        destruct (Z.leb_spec (2 ^ fmt_mw f) (Zpos m)); lia.
  - destruct (Z.eqb_spec ex (2 ^ fmt_ew f - 1)) as [Ht|Ht].
    + destruct (Z.eqb_spec mant 0) as [Hm0|Hm0]; [|discriminate].
      intros _. split; [reflexivity|]. unfold float_bits. subst. lia.
    + assert (HP : (0 < 2 ^ fmt_mw f)%Z) by (apply Z.pow_pos_nonneg; lia).
      destruct (mant + 2 ^ fmt_mw f)%Z as [|m|m] eqn:Hm; [lia| |lia].
      intros _. split.
      * cbn [valid_binary]. unfold bounded, canonical_mantissa, fexp.
        pose proof (@digits2_pos_above m (fmt_mw f) ltac:(lia) ltac:(lia)) as Hd1.
        assert (Hlt : (Zpos m < 2 ^ (fmt_mw f + 1))%Z).
        { rewrite Z.pow_add_r, Z.pow_1_r by lia. lia. }
        pose proof (@digits2_pos_below m (fmt_mw f + 1) ltac:(lia) Hlt) as Hd2.
        apply andb_true_iff. split; [apply Z.eqb_eq | apply Z.leb_le].
        -- rewrite Z.max_l; lia.
        -- unfold emin. lia.
      * unfold float_bits. cbv zeta.
        destruct (Z.leb_spec (2 ^ fmt_mw f) (Zpos m)); [|lia].
        replace (ex + emin (fmt_prec f) (fmt_emax f) - 1
                 - emin (fmt_prec f) (fmt_emax f) + 1)%Z with ex by lia.
        lia.
Qed.

(** X3. [deserialize] of a float class returns a plain float, not an
    instance of the class: the result has no [serialize], and has to be
    wrapped in the class again to be serialized. *)
Theorem Float_deserialize_plain (B : builtins) (T : prim) (f : float_fmt)
  (data : bytes) (v : value) :
  fmt T = Some f -> deserialize B T data = Ok v ->
  exists x,
    v = VFloat None x /\ isinstance v T = false /\
    (forall fuel, serialize B fuel v = Raise AttributeError) /\
    construct B T v = Ok (VFloat (Some T) x).
Proof.
  intros Hf Hd.
  assert (Hv : exists x, v = VFloat None x).
  { destruct T; try discriminate; cbn [deserialize fmt] in Hd;
      match type of Hd with
      | bind ?c _ = _ => destruct c as [x|]; [|discriminate]
      end; injection Hd as <-; eauto. }
  destruct Hv as [x ->]. exists x.
  split; [reflexivity|]. split; [reflexivity|]. split; [reflexivity|].
  destruct T; try discriminate; reflexivity.
Qed.

Lemma Float_deserialize_plain_witness :
  exists x,
    VFloat None (S754_finite false 4503599627370496 (-52)) = VFloat None x /\
    isinstance (VFloat None (S754_finite false 4503599627370496 (-52))) E = false /\
    (forall fuel,
        serialize host fuel (VFloat None (S754_finite false 4503599627370496 (-52)))
        = Raise AttributeError) /\
    construct host E (VFloat None (S754_finite false 4503599627370496 (-52)))
    = Ok (VFloat (Some E) x).
Proof.
  apply (@Float_deserialize_plain host E fmt_e [Byte.x00; Byte.x3c]);
    reflexivity.
Defined.

(** X4. When the buffer holds [size] bytes and they are not a NaN
    pattern, a float class decodes them to a float that the class, once
    the float is wrapped in it again, serializes to the same bytes. *)
Theorem Float_deserialize_serialize (B : builtins) (T : prim) (f : float_fmt)
  (data : bytes) (fuel : nat) :
  fmt T = Some f -> (size T <= List.length data)%nat ->
  is_nan (float_of_bits f (le_combine (slice_to (size T) data))) = false ->
  exists x vi,
    deserialize B T data = Ok (VFloat None x) /\
    construct B T (VFloat None x) = Ok vi /\
    serialize B (S fuel) vi = Ok (slice_to (size T) data).
Proof.
  intros Hf Hlen Hnan.
  assert (Hsize : size T = fmt_size f)
    by (destruct T; try discriminate; injection Hf as <-; reflexivity).
  set (bs := slice_to (size T) data) in *.
  assert (Hbs : List.length bs = fmt_size f).
  { unfold bs, slice_to. rewrite length_firstn. lia. }
  pose proof (le_combine_bound bs) as Hw.
  replace (8 * Z.of_nat (List.length bs))%Z
    with (8 * Z.of_nat (fmt_size f))%Z in Hw by (rewrite Hbs; reflexivity).
  destruct (float_bits_of_bits f Hw Hnan) as [Hvalid Hbits].
  set (h := float_of_bits f (le_combine bs)) in *.
  exists (widen h), (VFloat (Some T) (widen h)).
  assert (Hde : deserialize B T data = Ok (VFloat None (widen h))).
  { destruct T; try discriminate; cbn [deserialize fmt]; fold bs;
      injection Hf as <-; unfold struct_unpack; rewrite Hbs, Nat.eqb_refl;
      reflexivity. }
  split; [exact Hde|]. split.
  - destruct T; try discriminate; reflexivity.
  - assert (Hpack : struct_pack f (widen h) = Ok bs).
    { unfold struct_pack. rewrite (narrow_widen _ _ Hvalid).
      assert (Hov : is_finite (widen h) && is_inf h = false).
      { destruct h as [s|s| |s m e]; try reflexivity. apply andb_false_r. }
      rewrite Hov, Hbits, <- Hbs. rewrite split_le_combine. reflexivity. }
    destruct T; try discriminate; unfold serialize;
      cbn [type_of serialize_as E_serialize fmt];
      injection Hf as <-; exact Hpack.
Qed.

Lemma Float_deserialize_serialize_witness :
  exists x vi,
    deserialize host Float [Byte.x00; Byte.x00; Byte.x80; Byte.xbf; Byte.x07]
    = Ok (VFloat None x) /\
    construct host Float (VFloat None x) = Ok vi /\
    serialize host 1 vi = Ok [Byte.x00; Byte.x00; Byte.x80; Byte.xbf].
Proof.
  apply (@Float_deserialize_serialize host Float fmt_f
           [Byte.x00; Byte.x00; Byte.x80; Byte.xbf; Byte.x07] 0 eq_refl).
  - simpl. lia.
  - reflexivity.
Defined.

(* ================================================================== *)
(** * The text classes, byte for byte *)

Lemma utf8_encode_cons (c : Z) (s : str) :
  utf8_encode (c :: s)
  = (chunk <- utf8_encode_cp c ;; bs <- utf8_encode s ;; Ok (chunk ++ bs)).
Proof.
  unfold utf8_encode. cbn [mapM].
  destruct (utf8_encode_cp c) as [chunk|]; cbn [bind]; [|reflexivity].
  destruct (mapM utf8_encode_cp s) as [chunks|]; reflexivity.
Qed.

Lemma is_continuation_range (b : byte) :
  is_continuation b = true -> (0 <= cont_bits b < 64)%Z.
Proof.
  unfold is_continuation, cont_bits. intros H.
  apply andb_true_iff in H as [H1 H2].
  apply Z.leb_le in H1. apply Z.ltb_lt in H2. lia.
Qed.

Lemma scalar_value_true (c : Z) :
  (0 <= c < 1114112)%Z -> is_surrogate c = false -> scalar_value c = true.
Proof.
  intros H Hs. unfold scalar_value. rewrite Hs.
  destruct (Z.leb_spec 0 c); [|lia]. destruct (Z.ltb_spec c 1114112); [|lia].
  reflexivity.
Qed.

Lemma is_surrogate_small (c : Z) : (c < 55296)%Z -> is_surrogate c = false.
Proof. intros H. apply is_surrogate_false. lia. Qed.

Lemma is_surrogate_large (c : Z) : (57343 < c)%Z -> is_surrogate c = false.
Proof. intros H. apply is_surrogate_false. lia. Qed.

Lemma cont_byte (b : byte) (z : Z) :
  z = cont_bits b -> is_continuation b = true -> byte.of_Z (128 + z) = b.
Proof.
  intros -> H. apply is_continuation_range in H. unfold cont_bits in *.
  replace (128 + (byte.unsigned b - 128))%Z with (byte.unsigned b) by lia.
  apply byte.of_Z_unsigned.
Qed.

Lemma lead_byte (b : byte) (z : Z) : z = byte.unsigned b -> byte.of_Z z = b.
Proof. intros ->. apply byte.of_Z_unsigned. Qed.

Section Utf8Decode.

Local Arguments Z.add : simpl never.
Local Arguments Z.sub : simpl never.
Local Arguments Z.mul : simpl never.
Local Arguments Z.div : simpl never.
Local Arguments Z.modulo : simpl never.

(** The decoder accepts the shortest form only: the first character that
    it reads is encoded by the very bytes it was read from. *)
Lemma utf8_decode_step (b0 : byte) (rest : bytes) (s : str) :
  utf8_decode (b0 :: rest) = Ok s ->
  exists c s' chunk rest',
    s = c :: s' /\ b0 :: rest = chunk ++ rest' /\
    utf8_encode_cp c = Ok chunk /\ utf8_decode rest' = Ok s' /\
    (List.length rest' <= List.length rest)%nat.
Proof.
  cbn [utf8_decode]. pose proof (byte.unsigned_range b0) as Hu0.
  change (2 ^ 8)%Z with 256%Z in Hu0.
  set (u0 := byte.unsigned b0) in *.
  destruct (Z.ltb_spec u0 128) as [H1|H1].
  { intros H. destruct (utf8_decode rest) as [s'|] eqn:Hr; [|discriminate].
    injection H as <-. exists u0, s', [b0], rest.
    split; [reflexivity|]. split; [reflexivity|]. split; [|split; [exact Hr | lia]].
    unfold utf8_encode_cp. rewrite scalar_value_true;
      [|lia | apply is_surrogate_small; lia].
    cbn [negb]. destruct (Z.ltb_spec u0 128); [|lia].
    f_equal. f_equal. apply byte.of_Z_unsigned. }
  destruct (Z.ltb_spec u0 192) as [H2|H2]; [discriminate|].
  destruct (Z.ltb_spec u0 224) as [H3|H3].
  { destruct rest as [|b1 rest']; [discriminate|].
    set (c := ((u0 - 192) * 64 + cont_bits b1)%Z).
    destruct (is_continuation b1) eqn:Hc1; [|discriminate].
    destruct (Z.leb_spec 128 c) as [Hc|Hc]; [|discriminate].
    cbn [andb]. intros H.
    destruct (utf8_decode rest') as [s'|] eqn:Hr; [|discriminate].
    injection H as <-. exists c, s', [b0; b1], rest'.
    pose proof (is_continuation_range _ Hc1) as Hb1.
    split; [reflexivity|]. split; [reflexivity|].
    split; [|split; [exact Hr | cbn [List.length]; lia]].
    unfold utf8_encode_cp. rewrite scalar_value_true;
      [|unfold c; lia | apply is_surrogate_small; unfold c; lia].
    cbn [negb]. destruct (Z.ltb_spec c 128); [lia|].
    destruct (Z.ltb_spec c 2048); [|unfold c in *; lia].
    f_equal. f_equal; [|f_equal].
    - apply lead_byte. unfold c. fold u0. zdiv.
    - apply cont_byte; [|exact Hc1]. unfold c. zdiv. }
  destruct (Z.ltb_spec u0 240) as [H4|H4].
  { destruct rest as [|b1 [|b2 rest']]; try discriminate.
    set (c := ((u0 - 224) * 4096 + cont_bits b1 * 64 + cont_bits b2)%Z).
    destruct (is_continuation b1) eqn:Hc1; [|discriminate].
    destruct (is_continuation b2) eqn:Hc2; [|discriminate].
    destruct (Z.leb_spec 2048 c) as [Hc|Hc]; [|discriminate].
    destruct (is_surrogate c) eqn:Hsur; [discriminate|].
    cbn [andb negb]. intros H.
    destruct (utf8_decode rest') as [s'|] eqn:Hr; [|discriminate].
    injection H as <-. exists c, s', [b0; b1; b2], rest'.
    pose proof (is_continuation_range _ Hc1) as Hb1.
    pose proof (is_continuation_range _ Hc2) as Hb2.
    split; [reflexivity|]. split; [reflexivity|].
    split; [|split; [exact Hr | cbn [List.length]; lia]].
    unfold utf8_encode_cp. rewrite scalar_value_true;
      [|unfold c; lia | exact Hsur].
    cbn [negb]. destruct (Z.ltb_spec c 128); [lia|].
    destruct (Z.ltb_spec c 2048); [lia|].
    destruct (Z.ltb_spec c 65536); [|unfold c in *; lia].
    f_equal. f_equal; [|f_equal; [|f_equal]].
    - apply lead_byte. unfold c. fold u0. zdiv.
    - apply cont_byte; [|exact Hc1]. unfold c. zdiv.
    - apply cont_byte; [|exact Hc2]. unfold c. zdiv. }
  destruct (Z.ltb_spec u0 248) as [H5|H5]; [|discriminate].
  destruct rest as [|b1 [|b2 [|b3 rest']]]; try discriminate.
  set (c := ((u0 - 240) * 262144 + cont_bits b1 * 4096
             + cont_bits b2 * 64 + cont_bits b3)%Z).
  destruct (is_continuation b1) eqn:Hc1; [|discriminate].
  destruct (is_continuation b2) eqn:Hc2; [|discriminate].
  destruct (is_continuation b3) eqn:Hc3; [|discriminate].
  destruct (Z.leb_spec 65536 c) as [Hc|Hc]; [|discriminate].
  destruct (Z.ltb_spec c 1114112) as [Hmax|Hmax]; [|discriminate].
  cbn [andb]. intros H.
  destruct (utf8_decode rest') as [s'|] eqn:Hr; [|discriminate].
  injection H as <-. exists c, s', [b0; b1; b2; b3], rest'.
  pose proof (is_continuation_range _ Hc1) as Hb1.
  pose proof (is_continuation_range _ Hc2) as Hb2.
  pose proof (is_continuation_range _ Hc3) as Hb3.
  split; [reflexivity|]. split; [reflexivity|].
  split; [|split; [exact Hr | cbn [List.length]; lia]].
  unfold utf8_encode_cp. rewrite scalar_value_true;
    [|lia | apply is_surrogate_large; lia].
  cbn [negb]. destruct (Z.ltb_spec c 128); [lia|].
  destruct (Z.ltb_spec c 2048); [lia|].
  destruct (Z.ltb_spec c 65536); [lia|].
  f_equal. f_equal; [|f_equal; [|f_equal; [|f_equal]]].
  - apply lead_byte. unfold c. fold u0. zdiv.
  - apply cont_byte; [|exact Hc1]. unfold c. zdiv.
  - apply cont_byte; [|exact Hc2]. unfold c. zdiv.
  - apply cont_byte; [|exact Hc3]. unfold c. zdiv.
Qed.

End Utf8Decode.

(** [s.encode("utf8") == data] whenever [data.decode("utf8")] is [s]. *)
Lemma utf8_encode_decode (data : bytes) (s : str) :
  utf8_decode data = Ok s -> utf8_encode s = Ok data.
Proof.
  remember (List.length data) as n eqn:Hn.
  revert data s Hn. induction n as [n IH] using lt_wf_ind.
  intros data s Hn H. destruct data as [|b0 rest].
  - injection H as <-. reflexivity.
  - destruct (utf8_decode_step _ _ H)
      as (c & s' & chunk & rest' & -> & Hsplit & Hcp & Hrest & Hlen).
    rewrite utf8_encode_cons, Hcp. cbn [bind].
    rewrite (IH (List.length rest')) with (data := rest');
      [cbn [bind]; rewrite Hsplit; reflexivity | | reflexivity | exact Hrest].
    subst n. cbn [List.length]. lia.
Qed.

(** X5. When the buffer holds the bytes that [String.measure] counts and
    they decode, serializing the decoded text gives those bytes back: the
    decoder accepts nothing but the form that the encoder writes. *)
Theorem String_deserialize_serialize (B : builtins) (data : bytes) (m : nat)
  (v : value) (fuel : nat) :
  measure String data = Ok m -> (m <= List.length data)%nat ->
  deserialize B String data = Ok v ->
  serialize B (S fuel) v = Ok (slice_to m data).
Proof.
  intros Hm Hlen Hd.
  cbn [deserialize] in Hd. rewrite Hm in Hd. cbn [bind] in Hd.
  destruct (utf8_decode (slice 2 m data)) as [s|] eqn:Hs; [|discriminate].
  cbn [bind construct py_str] in Hd. injection Hd as <-.
  set (h := int_from_bytes false (slice_to 2 data)).
  change (measure String data) with (Ok (Z.to_nat h + 2)%nat) in Hm.
  assert (Hmv : (Z.to_nat h + 2)%nat = m) by congruence.
  clear Hm.
  pose proof (int_from_bytes_unsigned_bound (slice_to 2 data)) as Hh. fold h in Hh.
  assert (Hhead : List.length (slice_to 2 data) = 2%nat).
  { unfold slice_to. rewrite length_firstn. lia. }
  rewrite Hhead in Hh.
  assert (Hbody : List.length (slice 2 m data) = Z.to_nat h).
  { unfold slice. rewrite length_firstn, length_skipn. lia. }
  unfold serialize. cbn [type_of serialize_as String_serialize].
  rewrite (utf8_encode_decode _ Hs). cbn [bind].
  rewrite Hbody, Z2Nat.id by lia.
  pose proof (@int_to_from_bytes false (slice_to 2 data) ltac:(lia)) as Hw.
  rewrite Hhead in Hw. fold h in Hw. rewrite Hw. cbn [bind]. f_equal.
  unfold slice_to, slice.
  rewrite <- (firstn_skipn 2 data) at 3.
  rewrite firstn_app, length_firstn, firstn_firstn.
  replace (Nat.min m 2) with 2%nat by lia.
  replace (m - Nat.min 2 (List.length data))%nat with (m - 2)%nat by lia.
  reflexivity.
Qed.

Lemma String_deserialize_serialize_witness :
  serialize host 1 (VStr (Some String) [233; 33]%Z)
  = Ok (slice_to 5 [Byte.x03; Byte.x00; Byte.xc3; Byte.xa9; Byte.x21; Byte.xff]).
Proof.
  apply (@String_deserialize_serialize host
           [Byte.x03; Byte.x00; Byte.xc3; Byte.xa9; Byte.x21; Byte.xff] 5
           (VStr (Some String) [233; 33]%Z) 0).
  - reflexivity.
  - simpl. lia.
  - reflexivity.
Defined.

(** X6. [Char.deserialize] reads one byte as a code point and
    [Char.serialize] writes the UTF-8 form: decoding then encoding gives
    the byte back when it is below 0x80, and two bytes otherwise. *)
Theorem Char_deserialize_serialize (B : builtins) (b : byte) (data : bytes)
  (fuel : nat) :
  let u := byte.unsigned b in
  deserialize B Char (b :: data) = Ok (VStr (Some Char) [u]) /\
  serialize B (S fuel) (VStr (Some Char) [u])
  = Ok (if (u <? 128)%Z then [b]
        else [byte.of_Z (192 + u / 64); byte.of_Z (128 + u mod 64)]).
Proof.
  intros u. split; [reflexivity|].
  pose proof (byte.unsigned_range b) as Hu. change (2 ^ 8)%Z with 256%Z in Hu.
  fold u in Hu.
  unfold serialize. cbn [type_of serialize_as Char_serialize].
  unfold utf8_encode. cbn [mapM]. unfold utf8_encode_cp.
  rewrite scalar_value_true; [|lia | apply is_surrogate_small; lia].
  cbn [negb]. destruct (Z.ltb_spec u 128).
  - cbn [bind mapM List.concat app]. unfold u. rewrite byte.of_Z_unsigned.
    reflexivity.
  - destruct (Z.ltb_spec u 2048); [reflexivity | lia].
Qed.

(** X7. A [Char] that holds more than one character serializes its first
    character only; when that character is ASCII, the round trip returns
    a [Char] of that one character. *)
Theorem Char_keeps_first_character (B : builtins) (c : Z) (rest : str)
  (g : bytes) (fuel : nat) :
  (0 <= c < 128)%Z ->
  serialize B (S fuel) (VStr (Some Char) (c :: rest)) = Ok [byte.of_Z c] /\
  deserialize B Char ([byte.of_Z c] ++ g) = Ok (VStr (Some Char) [c]).
Proof.
  intros Hc. split.
  - unfold serialize. cbn [type_of serialize_as Char_serialize].
    apply utf8_encode_ascii. exact Hc.
  - cbn [app deserialize construct truthy negb py_str].
    rewrite unsigned_of_Z_small by lia. reflexivity.
Qed.

Lemma Char_keeps_first_character_witness :
  serialize host 1 (VStr (Some Char) [104; 105]%Z) = Ok [Byte.x68] /\
  deserialize host Char ([Byte.x68] ++ [Byte.x69]) = Ok (VStr (Some Char) [104%Z]).
Proof.
  apply (@Char_keeps_first_character host 104 [105%Z] [Byte.x69] 0). lia.
Defined.

(* ================================================================== *)
(** * Arrays: the typed-list operations *)

Lemma mapM_app {A C : Type} (f : A -> result C) (xs ys : list A) :
  mapM f (xs ++ ys)
  = (a <- mapM f xs ;; b <- mapM f ys ;; Ok (a ++ b)).
Proof.
  induction xs as [|x xs IH]; cbn [app mapM bind].
  - destruct (mapM f ys); reflexivity.
  - destruct (f x) as [y|]; cbn [bind]; [|reflexivity].
    rewrite IH. destruct (mapM f xs) as [a|]; cbn [bind]; [|reflexivity].
    destruct (mapM f ys); reflexivity.
Qed.

Lemma Array_init_coerce (B : builtins) (type : prim) (args : list value) :
  Array_init B type args
  = (items <- mapM (Array_coerce B type) (input_sequence args) ;;
     Ok (VList (Some (Array type)) items)).
Proof. reflexivity. Qed.

(** [T(x)] is an instance of exactly [T]. *)
Lemma construct_type (B : builtins) (T : prim) (x v : value) :
  construct B T x = Ok v -> type_of v = Some T.
Proof.
  destruct T; cbn [construct]; intros H;
    try (destruct (py_int B x); [|discriminate]; injection H as <-; reflexivity);
    try (destruct (py_float B x); [|discriminate]; injection H as <-; reflexivity).
  - destruct (negb (truthy x)); [discriminate|]. injection H as <-. reflexivity.
  - injection H as <-. reflexivity.
  - apply (Array_init_type _ _ _ H).
  - discriminate.
Qed.

Lemma Array_coerce_spec (B : builtins) (type : prim) (item : value) :
  (isinstance item type = true -> Array_coerce B type item = Ok item) /\
  (forall item', Array_coerce B type item = Ok item' ->
                 isinstance item' type = true) /\
  (forall e, Array_coerce B type item = Raise e -> e = TypeError).
Proof.
  unfold Array_coerce. destruct (isinstance item type) eqn:Hi; cbn [negb].
  - split; [reflexivity|]. split; [|discriminate].
    intros item' H. injection H as <-. exact Hi.
  - split; [discriminate|].
    destruct (construct B type item) as [v|] eqn:Hc.
    + split; [|discriminate]. intros item' H. injection H as <-.
      apply isinstance_type_of. apply (construct_type _ _ _ Hc).
    + split; [discriminate|]. intros e' H. injection H as <-. reflexivity.
Qed.

Lemma mapM_coerce_instances (B : builtins) (type : prim) (items items' : list value) :
  mapM (Array_coerce B type) items = Ok items' ->
  Forall (fun item => isinstance item type = true) items'.
Proof.
  intros H. apply mapM_Forall2 in H.
  induction H as [|x y xs ys Hxy _ IH]; constructor; [|exact IH].
  destruct (Array_coerce_spec B type x) as (_ & Hi & _). apply Hi. exact Hxy.
Qed.

Lemma mapM_coerce_id (B : builtins) (type : prim) (items : list value) :
  Forall (fun item => isinstance item type = true) items ->
  mapM (Array_coerce B type) items = Ok items.
Proof.
  induction 1 as [|x xs Hx _ IH]; cbn [mapM]; [reflexivity|].
  destruct (Array_coerce_spec B type x) as (Hid & _). rewrite (Hid Hx).
  cbn [bind]. rewrite IH. reflexivity.
Qed.

(** X8. Every item of a constructed array is an instance of the element
    class, and the array has one item for each item of the input
    sequence. *)
Theorem Array_init_items_typed (B : builtins) (type : prim) (args : list value)
  (v : value) :
  Array_init B type args = Ok v ->
  exists items,
    v = VList (Some (Array type)) items /\
    List.length items = List.length (input_sequence args) /\
    Forall (fun item => isinstance item type = true) items.
Proof.
  rewrite Array_init_coerce. intros H.
  destruct (mapM (Array_coerce B type) (input_sequence args)) as [items|] eqn:Hm;
    [|discriminate].
  injection H as <-. exists items. split; [reflexivity|].
  split; [apply (mapM_length _ _ Hm) | apply (mapM_coerce_instances _ _ _ Hm)].
Qed.

Lemma Array_init_items_typed_witness :
  exists items,
    VList (Some (Array Int32))
      [VInt (Some Int32) 1; VInt (Some Int32) 2; VInt (Some Int32) 3]
    = VList (Some (Array Int32)) items /\
    List.length items = 3%nat /\
    Forall (fun item => isinstance item Int32 = true) items.
Proof.
  apply (@Array_init_items_typed host Int32
           [VList None [VInt None 1; VStr None [50%Z];
                        VFloat None (S754_finite false 8782006274373222 (-51))]]).
  reflexivity.
Defined.

(** X9. Appending an item to the array constructed from a sequence gives
    the array constructed from the sequence with the item added, and
    fails, with [TypeError], when that construction fails. *)
Theorem Array_append_init (B : builtins) (type : prim) (xs items : list value)
  (x : value) :
  Array_init B type [VList None xs] = Ok (VList (Some (Array type)) items) ->
  (items' <- Array_append B type items x ;;
   Ok (VList (Some (Array type)) items'))
  = Array_init B type [VList None (xs ++ [x])].
Proof.
  rewrite !Array_init_coerce. cbn [input_sequence iterable iterate].
  intros H. rewrite mapM_app.
  destruct (mapM (Array_coerce B type) xs) as [cs|]; [|discriminate].
  injection H as <-. cbn [bind mapM]. unfold Array_append.
  destruct (Array_coerce B type x) as [x'|]; reflexivity.
Qed.

Lemma Array_append_init_witness :
  (items' <- Array_append host UInt8 [VInt (Some UInt8) 1] (VStr None [50%Z]) ;;
   Ok (VList (Some (Array UInt8)) items'))
  = Array_init host UInt8 [VList None ([VInt None 1] ++ [VStr None [50%Z]])].
Proof.
  apply (@Array_append_init host UInt8 [VInt None 1] [VInt (Some UInt8) 1]
           (VStr None [50%Z])).
  reflexivity.
Defined.

Lemma Array_extend_all (B : builtins) (type : prim) (items : list value)
  (iterable' : value) (cs : list value) :
  iterable iterable' = true ->
  mapM (Array_coerce B type) (iterate iterable') = Ok cs ->
  Array_extend B type items iterable' = (items ++ cs, Ok VNone).
Proof.
  intros Hit. unfold Array_extend. rewrite Hit.
  generalize (iterate iterable'). intros pending. revert items cs.
  induction pending as [|x pending IH]; intros items cs H; cbn [mapM] in H.
  - injection H as <-. rewrite app_nil_r. reflexivity.
  - destruct (Array_coerce B type x) as [x'|] eqn:Hx; [|discriminate].
    cbn [bind] in H.
    destruct (mapM (Array_coerce B type) pending) as [cs'|] eqn:Hcs; [|discriminate].
    injection H as <-. rewrite (IH (items ++ [x']) cs' eq_refl).
    rewrite <- app_assoc. reflexivity.
Qed.

(** X10. Extending the array constructed from a sequence with a list whose
    items can all be coerced gives the array constructed from the two
    sequences joined. *)
Theorem Array_extend_init (B : builtins) (type : prim)
  (xs ys items items' : list value) :
  Array_init B type [VList None xs] = Ok (VList (Some (Array type)) items) ->
  Array_init B type [VList None ys] = Ok (VList (Some (Array type)) items') ->
  Array_extend B type items (VList None ys) = (items ++ items', Ok VNone) /\
  Array_init B type [VList None (xs ++ ys)]
  = Ok (VList (Some (Array type)) (items ++ items')).
Proof.
  rewrite !Array_init_coerce. cbn [input_sequence iterable iterate].
  intros Hx Hy.
  destruct (mapM (Array_coerce B type) xs) as [cs|] eqn:Hxs; [|discriminate].
  destruct (mapM (Array_coerce B type) ys) as [ds|] eqn:Hys; [|discriminate].
  injection Hx as <-. injection Hy as <-. split.
  - apply Array_extend_all; [reflexivity | exact Hys].
  - rewrite mapM_app, Hxs, Hys. reflexivity.
Qed.

Lemma Array_extend_init_witness :
  Array_extend host UInt8 [VInt (Some UInt8) 1] (VList None [VStr None [50%Z]])
  = ([VInt (Some UInt8) 1] ++ [VInt (Some UInt8) 2], Ok VNone) /\
  Array_init host UInt8 [VList None ([VInt None 1] ++ [VStr None [50%Z]])]
  = Ok (VList (Some (Array UInt8)) ([VInt (Some UInt8) 1] ++ [VInt (Some UInt8) 2])).
Proof.
  apply (@Array_extend_init host UInt8 [VInt None 1] [VStr None [50%Z]]);
    reflexivity.
Defined.

(** X11. [extend] is not atomic: when an item of the iterable cannot be
    coerced, the call raises [TypeError] and the array keeps the items
    that came before it, coerced, while the items after it are never
    looked at. *)
Theorem Array_extend_partial (B : builtins) (type : prim)
  (items before before' after : list value) (bad : value) :
  mapM (Array_coerce B type) before = Ok before' ->
  isinstance bad type = false -> raises (construct B type bad) ->
  Array_extend B type items (VList None (before ++ bad :: after))
  = (items ++ before', Raise TypeError).
Proof.
  intros Hb Hi [e He]. unfold Array_extend. cbn [iterable iterate].
  revert items before' Hb.
  induction before as [|x before IH]; intros items before' Hb.
  - injection Hb as <-. cbn [app]. unfold Array_coerce at 1.
    rewrite Hi, He. cbn [negb]. rewrite app_nil_r. reflexivity.
  - cbn [mapM] in Hb.
    destruct (Array_coerce B type x) as [x'|] eqn:Hx; [|discriminate].
    cbn [bind] in Hb.
    destruct (mapM (Array_coerce B type) before) as [cs|] eqn:Hcs; [|discriminate].
    injection Hb as <-. cbn [app]. rewrite Hx.
    rewrite (IH (items ++ [x']) cs eq_refl). rewrite <- app_assoc. reflexivity.
Qed.

Lemma Array_extend_partial_witness :
  Array_extend host UInt8 [VInt (Some UInt8) 1]
    (VList None ([VInt None 2] ++ VNone :: [VInt None 3]))
  = ([VInt (Some UInt8) 1] ++ [VInt (Some UInt8) 2], Raise TypeError).
Proof.
  apply (@Array_extend_partial host UInt8 [VInt (Some UInt8) 1] [VInt None 2]
           [VInt (Some UInt8) 2] [VInt None 3] VNone).
  - reflexivity.
  - reflexivity.
  - exists TypeError. reflexivity.
Defined.

(** X12. The copy of a constructed array is an array of the same class
    that holds the same items. *)
Theorem Array_copy_identical (B : builtins) (type : prim) (args : list value)
  (items : list value) :
  Array_init B type args = Ok (VList (Some (Array type)) items) ->
  Array_copy B type items = Ok (VList (Some (Array type)) items).
Proof.
  intros H.
  assert (Hinst : Forall (fun item => isinstance item type = true) items).
  { rewrite Array_init_coerce in H.
    destruct (mapM (Array_coerce B type) (input_sequence args)) as [cs|] eqn:Hm;
      [|discriminate].
    injection H as <-. apply (mapM_coerce_instances _ _ _ Hm). }
  unfold Array_copy. rewrite Array_init_coerce.
  cbn [input_sequence iterable iterate].
  rewrite (@mapM_coerce_id B type items Hinst). reflexivity.
Qed.

Lemma Array_copy_identical_witness :
  Array_copy host UInt8 [VInt (Some UInt8) 1; VInt (Some UInt8) 2]
  = Ok (VList (Some (Array UInt8)) [VInt (Some UInt8) 1; VInt (Some UInt8) 2]).
Proof.
  apply (@Array_copy_identical host UInt8 [VInt None 1; VStr None [50%Z]]).
  reflexivity.
Defined.

(* ================================================================== *)
(** * Arrays: positions *)

Lemma list_insert_in_range (items : list value) (index : Z) (item : value) :
  (0 <= index <= Z.of_nat (List.length items))%Z ->
  list_insert items index item
  = firstn (Z.to_nat index) items ++ item :: skipn (Z.to_nat index) items.
Proof.
  intros H. unfold list_insert.
  destruct (Z.ltb_spec index 0); [lia|].
  destruct (Z.ltb_spec index 0); [lia|].
  destruct (Z.ltb_spec (Z.of_nat (List.length items)) index); [lia|].
  reflexivity.
Qed.

Lemma list_pop_at (pre post : list value) (x : value) (index : Z) :
  index = Z.of_nat (List.length pre) \/
  index = (- Z.of_nat (S (List.length post)))%Z ->
  list_pop (pre ++ x :: post) index = Ok (x, pre ++ post).
Proof.
  intros H. unfold list_pop.
  rewrite length_app. cbn [List.length].
  set (n := Z.of_nat (List.length pre + S (List.length post))).
  set (i := if (index <? 0)%Z then (index + n)%Z else index).
  assert (Hi : i = Z.of_nat (List.length pre)).
  { unfold i, n. destruct (Z.ltb_spec index 0); lia. }
  rewrite Hi. rewrite Nat2Z.id.
  destruct (Z.leb_spec 0 (Z.of_nat (List.length pre))); [|lia].
  destruct (Z.ltb_spec (Z.of_nat (List.length pre)) n); [|unfold n in *; lia].
  cbn [andb].
  rewrite nth_error_app2, Nat.sub_diag by lia. cbn [nth_error].
  rewrite firstn_app, Nat.sub_diag, firstn_all. cbn [firstn].
  rewrite app_nil_r.
  replace (S (List.length pre)) with (List.length (pre ++ [x]))
    by (rewrite length_app; cbn [List.length]; lia).
  change (pre ++ x :: post) with (pre ++ [x] ++ post).
  rewrite app_assoc, skipn_app, Nat.sub_diag, skipn_all. reflexivity.
Qed.

(** X13. [insert] at an index between 0 and the length puts the coerced
    item at that index, and [pop] at the same index restores the array;
    likewise [pop()] after [append]. *)
Theorem Array_insert_then_pop (B : builtins) (type : prim) (items : list value)
  (index : Z) (x : value) (items' : list value) :
  (0 <= index <= Z.of_nat (List.length items))%Z ->
  Array_insert B type items index x = Ok items' ->
  exists x',
    Array_coerce B type x = Ok x' /\
    nth_error items' (Z.to_nat index) = Some x' /\
    Array_pop (VList (Some (Array type)) items') index
    = Ok (VNone, VList (Some (Array type)) items) /\
    Array_append B type items x = Ok (items ++ [x']) /\
    Array_pop (VList (Some (Array type)) (items ++ [x'])) (-1)
    = Ok (VNone, VList (Some (Array type)) items).
Proof.
  intros Hidx H. unfold Array_insert in H.
  destruct (Array_coerce B type x) as [x'|] eqn:Hx; [|discriminate].
  cbn [bind] in H. injection H as <-. exists x'.
  rewrite (list_insert_in_range _ _ Hidx).
  set (i := Z.to_nat index).
  assert (Hlen : List.length (firstn i items) = i).
  { rewrite length_firstn. unfold i. lia. }
  split; [reflexivity|]. split; [|split; [|split]].
  - rewrite nth_error_app2 by lia. rewrite Hlen, Nat.sub_diag. reflexivity.
  - unfold Array_pop. rewrite list_pop_at by (left; rewrite Hlen; unfold i; lia).
    cbn [bind snd]. rewrite firstn_skipn. reflexivity.
  - unfold Array_append. rewrite Hx. reflexivity.
  - unfold Array_pop. rewrite list_pop_at by (right; reflexivity).
    cbn [bind snd]. rewrite app_nil_r. reflexivity.
Qed.

Lemma Array_insert_then_pop_witness :
  exists x',
    Array_coerce host UInt8 (VInt None 9) = Ok x' /\
    nth_error [VInt (Some UInt8) 1; VInt (Some UInt8) 9; VInt (Some UInt8) 2]
      (Z.to_nat 1) = Some x' /\
    Array_pop (VList (Some (Array UInt8))
                 [VInt (Some UInt8) 1; VInt (Some UInt8) 9; VInt (Some UInt8) 2]) 1
    = Ok (VNone, VList (Some (Array UInt8))
                   [VInt (Some UInt8) 1; VInt (Some UInt8) 2]) /\
    Array_append host UInt8 [VInt (Some UInt8) 1; VInt (Some UInt8) 2] (VInt None 9)
    = Ok ([VInt (Some UInt8) 1; VInt (Some UInt8) 2] ++ [x']) /\
    Array_pop (VList (Some (Array UInt8))
                 ([VInt (Some UInt8) 1; VInt (Some UInt8) 2] ++ [x'])) (-1)
    = Ok (VNone, VList (Some (Array UInt8))
                   [VInt (Some UInt8) 1; VInt (Some UInt8) 2]).
Proof.
  apply (@Array_insert_then_pop host UInt8
           [VInt (Some UInt8) 1; VInt (Some UInt8) 2] 1 (VInt None 9)).
  - simpl. lia.
  - reflexivity.
Defined.

(** X14. [pop] at an index that is not in the array raises [IndexError];
    on the empty array every index does. *)
Theorem Array_pop_out_of_range (c : option prim) (items : list value) (index : Z) :
  (index < - Z.of_nat (List.length items) \/
   Z.of_nat (List.length items) <= index)%Z ->
  Array_pop (VList c items) index = Raise IndexError.
Proof.
  intros H. unfold Array_pop, list_pop.
  set (n := Z.of_nat (List.length items)) in *.
  destruct (Z.ltb_spec index 0).
  - destruct (Z.leb_spec 0 (index + n)); [|reflexivity].
    destruct (Z.ltb_spec (index + n) n); [lia | reflexivity].
  - destruct (Z.leb_spec 0 index); [|reflexivity].
    destruct (Z.ltb_spec index n); [lia | reflexivity].
Qed.

Lemma Array_pop_out_of_range_witness :
  Array_pop (VList (Some (Array UInt8)) []) (-1) = Raise IndexError.
Proof.
  apply (@Array_pop_out_of_range (Some (Array UInt8)) [] (-1)%Z).
  simpl. lia.
Defined.

(** X15. [insert] never raises for its index: an index at or beyond the
    length appends the item, and a negative index that reaches before
    the start puts it in front. *)
Theorem Array_insert_clamps (B : builtins) (type : prim) (items : list value)
  (index : Z) (x : value) :
  ((Z.of_nat (List.length items) <= index)%Z ->
   Array_insert B type items index x = Array_append B type items x) /\
  ((index <= - Z.of_nat (List.length items))%Z ->
   Array_insert B type items index x
   = (x' <- Array_coerce B type x ;; Ok (x' :: items))).
Proof.
  unfold Array_insert, Array_append, list_insert.
  set (n := Z.of_nat (List.length items)).
  split; intros H; destruct (Array_coerce B type x) as [x'|]; try reflexivity;
    cbn [bind]; f_equal.
  - destruct (Z.ltb_spec index 0); [lia|].
    destruct (Z.ltb_spec index 0); [lia|].
    assert (Hn : Z.to_nat n = List.length items) by (unfold n; lia).
    destruct (Z.ltb_spec n index); rewrite ?Hn;
      [|replace index with n by lia; rewrite Hn];
      rewrite firstn_all, skipn_all; reflexivity.
  - destruct (Z.ltb_spec index 0).
    + destruct (Z.ltb_spec (index + n) 0); [reflexivity|].
      destruct (Z.ltb_spec n (index + n)); [lia|].
      replace (index + n)%Z with 0%Z by lia. reflexivity.
    + assert (Hn : n = 0%Z) by lia.
      destruct (Z.ltb_spec index 0); [lia|].
      destruct items; [|unfold n in Hn; cbn [List.length] in Hn; lia].
      destruct (Z.ltb_spec n index); rewrite firstn_nil, skipn_nil; reflexivity.
Qed.

Lemma Array_insert_clamps_witness :
  Array_insert host UInt8 [VInt (Some UInt8) 1] 7 (VInt None 2)
  = Array_append host UInt8 [VInt (Some UInt8) 1] (VInt None 2) /\
  Array_insert host UInt8 [VInt (Some UInt8) 1] (-7) (VInt None 2)
  = (x' <- Array_coerce host UInt8 (VInt None 2) ;; Ok [x'; VInt (Some UInt8) 1]).
Proof.
  split.
  - apply (@Array_insert_clamps host UInt8 [VInt (Some UInt8) 1] 7 (VInt None 2)).
    simpl. lia.
  - apply (@Array_insert_clamps host UInt8 [VInt (Some UInt8) 1] (-7)
             (VInt None 2)).
    simpl. lia.
Defined.

Lemma Forall_slices {A : Type} (P : A -> Prop) (n : nat) (l : list A) :
  Forall P l -> Forall P (firstn n l) /\ Forall P (skipn n l).
Proof.
  intros H. rewrite <- (firstn_skipn n l) in H. apply Forall_app in H. exact H.
Qed.

Lemma Forall_list_insert (P : value -> Prop) (items : list value) (index : Z)
  (x : value) :
  Forall P items -> P x -> Forall P (list_insert items index x).
Proof.
  intros Hitems Hx. unfold list_insert.
  match goal with |- Forall P (firstn ?i _ ++ _) =>
    generalize i; intros k end.
  destruct (Forall_slices k Hitems) as [Hf Hs].
  apply Forall_app. split; [exact Hf|]. constructor; assumption.
Qed.

Lemma Array_extend_typed (B : builtins) (type : prim) (pending items : list value) :
  Forall (fun item => isinstance item type = true) items ->
  Forall (fun item => isinstance item type = true)
    (fst ((fix loop (pending items : list value) {struct pending}
             : list value * result value :=
             match pending with
             | [] => (items, Ok VNone)
             | item :: pending' =>
               match Array_coerce B type item with
               | Ok item' => loop pending' (items ++ [item'])
               | Raise e => (items, Raise e)
               end
             end) pending items)).
Proof.
  revert items. induction pending as [|x pending IH]; intros items H.
  - exact H.
  - destruct (Array_coerce B type x) as [x'|e] eqn:Hx; [|exact H].
    apply IH. apply Forall_app. split; [exact H|].
    constructor; [|constructor].
    destruct (Array_coerce_spec B type x) as (_ & Hi & _). apply Hi. exact Hx.
Qed.

(** X16. [append], [insert], [extend] (also when it fails part-way) and
    [pop] keep the array typed: when every item is an instance of the
    element class before the call, every item is one after it. *)
Theorem Array_methods_keep_items_typed (B : builtins) (type : prim)
  (items : list value) :
  let typed := Forall (fun item => isinstance item type = true) in
  typed items ->
  (forall x items', Array_append B type items x = Ok items' -> typed items') /\
  (forall index x items',
      Array_insert B type items index x = Ok items' -> typed items') /\
  (forall iterable', typed (fst (Array_extend B type items iterable'))) /\
  (forall index r,
      Array_pop (VList (Some (Array type)) items) index = Ok r ->
      exists items', snd r = VList (Some (Array type)) items' /\ typed items').
Proof.
  intros typed H. split; [|split; [|split]].
  - intros x items' Ha. unfold Array_append in Ha.
    destruct (Array_coerce B type x) as [x'|] eqn:Hx; [|discriminate].
    injection Ha as <-. apply Forall_app. split; [exact H|].
    constructor; [|constructor].
    destruct (Array_coerce_spec B type x) as (_ & Hi & _). apply Hi. exact Hx.
  - intros index x items' Ha. unfold Array_insert in Ha.
    destruct (Array_coerce B type x) as [x'|] eqn:Hx; [|discriminate].
    injection Ha as <-. apply Forall_list_insert; [exact H|].
    destruct (Array_coerce_spec B type x) as (_ & Hi & _). apply Hi. exact Hx.
  - intros it. unfold Array_extend. destruct (iterable it); [|exact H].
    apply Array_extend_typed. exact H.
  - intros index r Hp. unfold Array_pop, list_pop in Hp.
    match type of Hp with
    | context [if ?c then _ else _] => destruct c; [|discriminate]
    end.
    match type of Hp with
    | context [nth_error ?l ?i] => destruct (nth_error l i); [|discriminate]
    end.
    cbn [bind snd] in Hp. injection Hp as <-. cbn [snd].
    eexists. split; [reflexivity|].
    unfold typed in *. apply Forall_app. split.
    + match goal with |- Forall _ (firstn ?i _) =>
        exact (proj1 (Forall_slices i H)) end.
    + destruct items as [|a l]; [constructor|].
      inversion H as [|? ? _ Hl]; subst.
      match goal with |- Forall _ (skipn ?i _) =>
        exact (proj2 (Forall_slices i Hl)) end.
Qed.

Lemma Array_methods_keep_items_typed_witness :
  Forall (fun item => isinstance item UInt8 = true)
    (fst (Array_extend host UInt8 [VInt (Some UInt8) 1]
            (VList None [VInt None 2; VNone; VInt None 3]))).
Proof.
  apply (@Array_methods_keep_items_typed host UInt8 [VInt (Some UInt8) 1]).
  repeat constructor.
Defined.

(* ================================================================== *)
(** * Decoded arrays and composites *)

Lemma Array_decode_loop_length (B : builtins) (type : prim) (data : bytes)
  (count : nat) (acc : list value) (offset : nat) (st : list value * nat) :
  repeatM count
    (fun st : list value * nat =>
       let '(items, offset) := st in
       item <- deserialize B type (slice_from offset data) ;;
       m <- measure type (slice_from offset data) ;;
       Ok (items ++ [item], offset + m)%nat)
    (acc, offset) = Ok st ->
  List.length (fst st) = (List.length acc + count)%nat.
Proof.
  revert acc offset. induction count as [|count IH]; intros acc offset H.
  - injection H as <-. cbn [fst]. lia.
  - rewrite repeatM_S in H.
    destruct (deserialize B type (slice_from offset data)) as [item|]; [|discriminate].
    destruct (measure type (slice_from offset data)) as [m|]; [|discriminate].
    cbn [bind] in H. apply IH in H. rewrite H, length_app. cbn [List.length]. lia.
Qed.

Lemma measure_Array_positive (type : prim) (data : bytes) (m : nat) :
  measure (Array type) data = Ok m -> (1 <= m)%nat.
Proof.
  rewrite measure_Array.
  destruct (measure_elements type _ _) as [total|]; [|discriminate].
  intros H. injection H as <-. lia.
Qed.

(** X17. A decoded array holds as many items as the first byte of the
    buffer says, at most 255, each an instance of the element class; the
    empty buffer decodes to the empty array. *)
Theorem Array_deserialize_count (B : builtins) (type : prim) :
  (forall data v,
      deserialize B (Array type) data = Ok v ->
      exists items,
        v = VList (Some (Array type)) items /\
        List.length items = Z.to_nat (int_from_bytes false (slice_to 1 data)) /\
        (List.length items <= 255)%nat /\
        Forall (fun item => isinstance item type = true) items) /\
  deserialize B (Array type) [] = Ok (VList (Some (Array type)) []).
Proof.
  split; [|reflexivity].
  intros data v H.
  change (deserialize B (Array type) data)
    with (m <- measure (Array type) data ;;
          st <- repeatM
                  (Z.to_nat (int_value (Int_deserialize UInt8 false (slice_to m data))))
                  (fun st : list value * nat =>
                     let '(items, offset) := st in
                     item <- deserialize B type (slice_from offset (slice_to m data)) ;;
                     m <- measure type (slice_from offset (slice_to m data)) ;;
                     Ok (items ++ [item], offset + m)%nat)
                  ([], size UInt8) ;;
          Array_init B type [VList None (fst st)]) in H.
  destruct (measure (Array type) data) as [m|] eqn:Hm; [|discriminate].
  cbn [bind] in H.
  pose proof (measure_Array_positive _ _ Hm) as Hpos.
  unfold Int_deserialize in H. cbn [int_value size] in H.
  rewrite slice_to_slice_to in H by lia.
  set (count := Z.to_nat (int_from_bytes false (slice_to 1 data))) in *.
  match type of H with
  | bind ?loop _ = _ => destruct loop as [st|] eqn:Hloop; [|discriminate]
  end.
  cbn [bind] in H. apply Array_decode_loop_length in Hloop.
  rewrite Array_init_coerce in H. cbn [input_sequence iterable iterate] in H.
  destruct (mapM (Array_coerce B type) (fst st)) as [items|] eqn:Hitems;
    [|discriminate].
  injection H as <-. exists items. split; [reflexivity|].
  assert (Hlen : List.length items = count).
  { rewrite (mapM_length _ _ Hitems), Hloop. reflexivity. }
  split; [exact Hlen|]. split; [|apply (mapM_coerce_instances _ _ _ Hitems)].
  rewrite Hlen. unfold count.
  pose proof (int_from_bytes_unsigned_bound (slice_to 1 data)) as Hb.
  assert (Hl : (List.length (slice_to 1 data) <= 1)%nat).
  { unfold slice_to. rewrite length_firstn. lia. }
  assert (Hp : (2 ^ (8 * Z.of_nat (List.length (slice_to 1 data))) <= 2 ^ 8)%Z).
  { apply Z.pow_le_mono_r; lia. }
  change (2 ^ 8)%Z with 256%Z in Hp. lia.
Qed.

Lemma Array_deserialize_count_witness :
  exists items,
    VList (Some (Array UInt8)) [VInt (Some UInt8) 7; VInt (Some UInt8) 8]
    = VList (Some (Array UInt8)) items /\
    List.length items
    = Z.to_nat (int_from_bytes false
                  (slice_to 1 [Byte.x02; Byte.x07; Byte.x08; Byte.xff])) /\
    (List.length items <= 255)%nat /\
    Forall (fun item => isinstance item UInt8 = true) items.
Proof.
  destruct (Array_deserialize_count host UInt8) as [H _].
  apply (H [Byte.x02; Byte.x07; Byte.x08; Byte.xff]). reflexivity.
Defined.

(* ------------------------------------------------------------------ *)







Lemma ComplexData_decode_loop_keys (B : builtins) (data : bytes)
  (map : list (string * prim)) (kw : list (string * value)) (offset : nat)
  (st : list (string * value) * nat) :
  NoDup (List.map fst kw ++ List.map fst map) ->
  foldM (fun (st : list (string * value) * nat) (field : string * prim) =>
           let '(kwargs, offset) := st in
           let '(attr, primitive) := field in
           v <- deserialize B primitive (slice_from offset data) ;;
           m <- measure primitive (slice_from offset data) ;;
           Ok (dict_set kwargs attr v, offset + m)%nat)
        map (kw, offset) = Ok st ->
  List.map fst (fst st) = List.map fst kw ++ List.map fst map.
Proof.
  revert kw offset. induction map as [|[attr primitive] map IH];
    intros kw offset Hnd H.
  - rewrite foldM_nil in H. injection H as <-. cbn [List.map fst].
    rewrite app_nil_r. reflexivity.
  - rewrite foldM_cons in H.
    destruct (deserialize B primitive (slice_from offset data)) as [v|]; [|discriminate].
    destruct (measure primitive (slice_from offset data)) as [m|]; [|discriminate].
    cbn [bind] in H. cbn [List.map fst] in Hnd.
    assert (Hnew : ~ In attr (List.map fst kw)).
    { intros Hin. apply NoDup_remove_2 in Hnd. apply Hnd.
      apply in_or_app. left. exact Hin. }
    rewrite (@dict_set_new _ kw attr v Hnew) in H.
    apply IH in H.
    + rewrite H, map_app. cbn [List.map fst]. rewrite <- app_assoc. reflexivity.
    + rewrite map_app. cbn [List.map fst]. rewrite <- app_assoc. exact Hnd.
Qed.

(** X20. A decoded data type instance holds every field of the map, in
    the order of the map, and nothing else. *)
Theorem ComplexData_deserialize_fields (B : builtins) (qualname : string)
  (map : list (string * prim)) (data : bytes) (v : value) :
  NoDup (List.map fst map) ->
  deserialize B (ComplexData qualname map) data = Ok v ->
  exists dict,
    v = VObj (ComplexData qualname map) dict /\
    List.map fst dict = List.map fst map.
Proof.
  intros Hnd H. cbn [deserialize] in H.
  match type of H with
  | bind ?c _ = _ => destruct c as [m|]; [|discriminate]
  end.
  cbn [bind] in H.
  match type of H with
  | bind ?c _ = _ => destruct c as [st|] eqn:Hloop; [|discriminate]
  end.
  cbn [bind] in H.
  apply ComplexData_decode_loop_keys in Hloop; [|exact Hnd].
  cbn [List.map app] in Hloop.
  rewrite (@ComplexData_init_fields qualname map (fst st) Hloop Hnd) in H.
  injection H as <-. exists (fst st). split; [reflexivity | exact Hloop].
Qed.

Lemma ComplexData_deserialize_fields_witness :
  exists dict,
    VObj (ComplexData "P" [("x"%string, UInt8); ("s"%string, String)])
      [("x"%string, VInt (Some UInt8) 5); ("s"%string, VStr (Some String) [111%Z])]
    = VObj (ComplexData "P" [("x"%string, UInt8); ("s"%string, String)]) dict /\
    List.map fst dict = ["x"%string; "s"%string].
Proof.
  apply (@ComplexData_deserialize_fields host "P"
           [("x"%string, UInt8); ("s"%string, String)]
           [Byte.x05; Byte.x01; Byte.x00; Byte.x6f]).
  - repeat constructor; cbn [In]; intros H;
      repeat (destruct H as [H|H]; [discriminate H|]); exact H.
  - reflexivity.
Defined.




(* ================================================================== *)
(** * Values in a stream *)

Lemma slice_to_app (k : nat) (d g : bytes) :
  (k <= List.length d)%nat -> slice_to k (d ++ g) = slice_to k d.
Proof.
  intros H. unfold slice_to. rewrite firstn_app.
  replace (k - List.length d)%nat with 0%nat by lia.
  cbn [firstn]. apply app_nil_r.
Qed.

Lemma slice_from_app (k : nat) (d g : bytes) :
  (k <= List.length d)%nat -> slice_from k (d ++ g) = slice_from k d ++ g.
Proof.
  intros H. unfold slice_from. rewrite skipn_app.
  replace (k - List.length d)%nat with 0%nat by lia. reflexivity.
Qed.

Lemma measure_elements_extends (type : prim) (g : bytes) :
  measure_extends type ->
  forall count d total,
    measure_elements type count d = Ok total ->
    (total <= List.length d)%nat ->
    measure_elements type count (d ++ g) = Ok total.
Proof.
  intros Hext. induction count as [|count IH]; intros d total Hm Hlen.
  - exact Hm.
  - cbn [measure_elements] in Hm |- *.
    destruct (measure type d) as [m|] eqn:Hhead; [|discriminate].
    cbn [bind] in Hm.
    destruct (measure_elements type count (slice_from m d)) as [rest|] eqn:Hrest;
      [|discriminate].
    injection Hm as <-.
    rewrite (Hext d g m Hhead) by lia. cbn [bind].
    rewrite slice_from_app by lia.
    rewrite (IH (slice_from m d) rest Hrest); [reflexivity|].
    unfold slice_from. rewrite length_skipn. lia.
Qed.

Lemma measure_fields_extends (types : list prim) (g : bytes) :
  Forall measure_extends types ->
  forall d total,
    measure_fields types d = Ok total ->
    (total <= List.length d)%nat ->
    measure_fields types (d ++ g) = Ok total.
Proof.
  induction 1 as [|primitive types Hext _ IH]; intros d total Hm Hlen.
  - exact Hm.
  - cbn [measure_fields] in Hm |- *.
    destruct (measure primitive d) as [m|] eqn:Hhead; [|discriminate].
    cbn [bind] in Hm.
    destruct (measure_fields types (slice_from m d)) as [rest|] eqn:Hrest;
      [|discriminate].
    injection Hm as <-.
    rewrite (Hext d g m Hhead) by lia. cbn [bind].
    rewrite slice_from_app by lia.
    rewrite (IH (slice_from m d) rest Hrest); [reflexivity|].
    unfold slice_from. rewrite length_skipn. lia.
Qed.

Lemma measure_extension (T : prim) : measure_extends T.
Proof.
  induction T as [T HT|type IH|qualname map IH] using prim_induction;
    intros d g m Hm Hlen.
  - destruct T; try contradiction; try exact Hm.
    change (measure String d)
      with (Ok (Z.to_nat (int_from_bytes false (slice_to 2 d)) + 2)%nat) in Hm.
    change (measure String (d ++ g))
      with (Ok (Z.to_nat (int_from_bytes false (slice_to 2 (d ++ g))) + 2)%nat).
    assert (Hm' : (Z.to_nat (int_from_bytes false (slice_to 2 d)) + 2)%nat = m)
      by congruence.
    rewrite slice_to_app by lia. exact Hm.
  - rewrite measure_Array in Hm |- *.
    destruct (measure_elements type
                (Z.to_nat (int_from_bytes false (slice_to 1 d)))
                (slice_from 1 d)) as [total|] eqn:Helems; [|discriminate].
    assert (Hm' : (1 + total)%nat = m) by (cbn [bind] in Hm; congruence).
    rewrite slice_to_app, slice_from_app by lia.
    rewrite (@measure_elements_extends type g IH _ (slice_from 1 d) total Helems);
      [exact Hm|].
    unfold slice_from. rewrite length_skipn. lia.
  - rewrite measure_ComplexData in Hm |- *.
    apply measure_fields_extends; try assumption.
    clear -IH. induction map as [|[attr primitive] map IHm]; [constructor|].
    destruct IH as [Hp Hmap]. constructor; [exact Hp | exact (IHm Hmap)].
Qed.

(** X22. [measure] depends on nothing but the bytes that it counts: two
    buffers that hold them and agree on them have the same measure. *)
Theorem measure_reads_counted_bytes (T : prim) (data data' : bytes) (m : nat) :
  measure T data = Ok m ->
  (m <= List.length data)%nat -> (m <= List.length data')%nat ->
  slice_to m data' = slice_to m data ->
  measure T data' = Ok m.
Proof.
  intros Hm Hlen Hlen' Heq.
  pose proof (@measure_prefix T data m m Hm Hlen (le_n m)) as Hcut.
  rewrite <- Heq in Hcut.
  rewrite <- (firstn_skipn m data'). apply measure_extension; [exact Hcut|].
  unfold slice_to. rewrite length_firstn. lia.
Qed.

Lemma measure_reads_counted_bytes_witness :
  measure (Array String)
    [Byte.x01; Byte.x01; Byte.x00; Byte.x61; Byte.xff; Byte.xff]
  = Ok 4%nat.
Proof.
  apply (@measure_reads_counted_bytes (Array String)
           [Byte.x01; Byte.x01; Byte.x00; Byte.x61]
           [Byte.x01; Byte.x01; Byte.x00; Byte.x61; Byte.xff; Byte.xff] 4).
  - reflexivity.
  - simpl. lia.
  - simpl. lia.
  - reflexivity.
Defined.



(* ================================================================== *)
(** * Floats that every class takes, and equality on missing fields *)

Lemma widen_double (x : spec_float) : valid_float x = true -> widen x = x.
Proof.
  destruct x as [s|s| |s m e]; try reflexivity.
  unfold valid_float. cbn [valid_binary]. intros Hb.
  unfold bounded, canonical_mantissa in Hb.
  apply andb_true_iff in Hb as [Hc _]. apply Z.eqb_eq in Hc.
  unfold widen. rewrite Hc. unfold shl_align. rewrite Z.sub_diag. reflexivity.
Qed.

Lemma float_class_codec (B : builtins) (T : prim) (f : float_fmt)
  (h : spec_float) (fuel : nat) (g : bytes) :
  fmt T = Some f -> valid_binary (fmt_prec f) (fmt_emax f) h = true ->
  exists bs,
    serialize B (S fuel) (VFloat (Some T) (widen h)) = Ok bs /\
    List.length bs = size T /\
    deserialize B T (bs ++ g) = Ok (VFloat None (widen h)).
Proof.
  intros Hf Hv. destruct (@struct_unpack_pack f h g Hv) as (bs & Hp & Hl & Hu).
  assert (Hsize : size T = fmt_size f)
    by (destruct T; try discriminate; injection Hf as <-; reflexivity).
  exists bs. split; [|split].
  - unfold serialize. cbn [type_of].
    destruct T; try discriminate; injection Hf as <-; exact Hp.
  - rewrite Hsize. exact Hl.
  - destruct T; try discriminate; injection Hf as <-; cbn [deserialize fmt];
      change (size E) with (fmt_size fmt_e);
      change (size Float) with (fmt_size fmt_f);
      change (size Double) with (fmt_size fmt_d);
      rewrite Hu; reflexivity.
Qed.

(** X24. [Double.serialize] takes every float and [Double.deserialize]
    gives the same float back; [E] and [Float], which raise
    [OverflowError] on a finite float that is too large, take the
    infinities and NaN and give them back. *)
Theorem Float_serialize_total (B : builtins) (x : spec_float) (fuel : nat)
  (g : bytes) :
  valid_float x = true ->
  (exists bs,
      serialize B (S fuel) (VFloat (Some Double) x) = Ok bs /\
      List.length bs = 8%nat /\
      deserialize B Double (bs ++ g) = Ok (VFloat None x)) /\
  (forall T f,
      fmt T = Some f -> is_finite x = false ->
      exists bs,
        serialize B (S fuel) (VFloat (Some T) x) = Ok bs /\
        List.length bs = size T /\
        deserialize B T (bs ++ g) = Ok (VFloat None x)).
Proof.
  intros Hv. split.
  - rewrite <- (@widen_double x Hv).
    apply (@float_class_codec B Double fmt_d x fuel g eq_refl). exact Hv.
  - intros T f Hf Hfin.
    assert (Hw : widen x = x) by (destruct x; try reflexivity; discriminate).
    rewrite <- Hw. apply (@float_class_codec B T f x fuel g Hf).
    destruct x; try reflexivity; discriminate.
Qed.

Lemma Float_serialize_total_witness :
  (exists bs,
      serialize host 1 (VFloat (Some Double) (S754_finite false 7205759403792794 (-56)))
      = Ok bs /\
      List.length bs = 8%nat /\
      deserialize host Double (bs ++ [Byte.xff])
      = Ok (VFloat None (S754_finite false 7205759403792794 (-56)))) /\
  (exists bs,
      serialize host 1 (VFloat (Some E) (S754_infinity true)) = Ok bs /\
      List.length bs = size E /\
      deserialize host E (bs ++ [Byte.xff]) = Ok (VFloat None (S754_infinity true))).
Proof.
  split.
  - apply (@Float_serialize_total host (S754_finite false 7205759403792794 (-56))
             0 [Byte.xff]).
    reflexivity.
  - destruct (@Float_serialize_total host (S754_infinity true) 0 [Byte.xff] eq_refl)
      as [_ H].
    apply (H E fmt_e); reflexivity.
Defined.



